(** * AeroScan page script (JS.js)

    A shallow embedding of the DOM event handlers of [JS.js] together with
    the properties its specification states about them.

    Conventions of the embedding:
    - the document is the list of its elements in document order; an
      element handle (what the script holds in [element], [link], [img],
      [stat] ...) is the index of the element in that list, so that a
      mutation through one handle is seen through every other;
    - [classList] is a finite set of class names, the attributes are a finite
      map from attribute names to values;
    - layout data the script only reads ([window.innerHeight],
      [getBoundingClientRect().top], [offsetTop], [window.pageYOffset]) is an
      input of the handler that reads it;
    - JavaScript numbers are the rationals extended with [NaN] and the two
      infinities ([Num]): the rounding of IEEE doubles and the sign of zero
      are left out there. The counter of [animateCounter] is modelled a
      second time over binary64 numbers ([Double]), for the target on which
      the rounding decides whether the counter ends. *)

From Stdlib Require Import QArith Qround Qabs Lqa ZArith Lia Ascii String.
From Stdlib Require Import Floats Uint63.
From stdpp Require Import gmap strings list sets pretty.

Open Scope string_scope.

(** ** Array.prototype.forEach / NodeList.prototype.forEach

    The callback receives the element and the state it mutates. *)
Definition forEach {A S : Type} (l : list A) (f : A -> S -> S) (s : S) : S :=
  foldl (fun s a => f a s) s l.

Definition Qlt_bool (a b : Q) : bool := negb (Qle_bool b a).

(** ** The document *)
Module Dom.

Record Element := mkElement {
  tagName : string;
  parentNode : option nat;
  attributes : gmap string string;
  classList : gset string;
  textContent : string
}.

Abbreviation Document := (list Element).

Definition getAttribute (a : string) (e : Element) : option string :=
  attributes e !! a.

Definition hasAttribute (a : string) (e : Element) : bool :=
  bool_decide (is_Some (attributes e !! a)).

Definition setAttribute (a v : string) (e : Element) : Element :=
  mkElement (tagName e) (parentNode e) (<[a := v]> (attributes e))
            (classList e) (textContent e).

Definition contains (c : string) (e : Element) : bool :=
  bool_decide (c ∈ classList e).

Definition classList_add (c : string) (e : Element) : Element :=
  mkElement (tagName e) (parentNode e) (attributes e)
            ({[c]} ∪ classList e) (textContent e).

Definition classList_remove (c : string) (e : Element) : Element :=
  mkElement (tagName e) (parentNode e) (attributes e)
            (classList e ∖ {[c]}) (textContent e).

Definition set_textContent (t : string) (e : Element) : Element :=
  mkElement (tagName e) (parentNode e) (attributes e) (classList e) t.

(** Mutation of the element behind a handle. A handle that is not in the
    document designates nothing and the mutation is lost. *)
Definition modify (i : nat) (f : Element -> Element) (doc : Document) : Document :=
  alter f i doc.

(** The selectors the script uses. *)
Inductive Selector :=
| Class (c : string)                    (* .c *)
| Tag (t : string)                      (* t *)
| TagAttr (t a : string)                (* t[a] *)
| TagAttrPrefix (t a v : string)        (* t[a^="v"] *)
| Descendant (anc sub : Selector).      (* anc sub *)

(** Proper ancestors of an element, nearest first. *)
Fixpoint ancestors (fuel : nat) (doc : Document) (i : nat) : list nat :=
  match fuel with
  | O => []
  | S fuel =>
      match doc !! i ≫= parentNode with
      | Some p => p :: ancestors fuel doc p
      | None => []
      end
  end.

Definition on_element (doc : Document) (i : nat) (p : Element -> bool) : bool :=
  from_option p false (doc !! i).

Fixpoint matches (doc : Document) (sel : Selector) (i : nat) : bool :=
  match sel with
  | Class c => on_element doc i (contains c)
  | Tag t => on_element doc i (fun e => String.eqb (tagName e) t)
  | TagAttr t a =>
      on_element doc i (fun e => String.eqb (tagName e) t && hasAttribute a e)
  | TagAttrPrefix t a v =>
      on_element doc i (fun e =>
        String.eqb (tagName e) t &&
        from_option (String.prefix v) false (getAttribute a e))
  | Descendant anc sub =>
      matches doc sub i &&
      existsb (matches doc anc) (ancestors (length doc) doc i)
  end.

(** [document.querySelectorAll]: the matching elements in document order. *)
Definition querySelectorAll (sel : Selector) (doc : Document) : list nat :=
  filter (fun i => matches doc sel i) (seq 0 (length doc)).

(** [root.querySelectorAll]: the matching descendants of [root]. *)
Definition querySelectorAll_from (root : nat) (sel : Selector) (doc : Document)
  : list nat :=
  filter (fun i => bool_decide (root ∈ ancestors (length doc) doc i))
         (querySelectorAll sel doc).

Definition querySelector (sel : Selector) (doc : Document) : option nat :=
  head (querySelectorAll sel doc).

(** What the script reads from the layout. *)
Record Layout := mkLayout {
  innerHeight : Z;                (* window.innerHeight *)
  pageYOffset : Q;                (* window.pageYOffset *)
  boundingTop : nat -> Q;         (* element.getBoundingClientRect().top *)
  offsetTop : nat -> Z            (* element.offsetTop *)
}.

End Dom.
Import Dom.

(** ** Scroll reveal *)

Definition revealOnScroll (lay : Layout) (doc : Document) : Document :=
  let revealElements := querySelectorAll (Class "reveal") doc in
  let windowHeight := inject_Z (innerHeight lay) in
  let revealPoint := 100%Q in
  forEach revealElements (fun element doc =>
    let elementTop := boundingTop lay element in
    if Qlt_bool elementTop (windowHeight - revealPoint)%Q
    then modify element (classList_add "active") doc
    else doc) doc.

(** ** Active navigation link *)

(** The first loop of [updateActiveNavLink]: the value of [current] after
    the sections have been visited. [getAttribute] answers [null] ([None])
    for a missing attribute. *)
Definition current_section (lay : Layout) (doc : Document) : option string :=
  let sections := querySelectorAll (TagAttr "section" "id") doc in
  forEach sections (fun section current =>
    let sectionTop := offsetTop lay section in
    if Qle_bool (inject_Z (sectionTop - 200)) (pageYOffset lay)
    then doc !! section ≫= getAttribute "id"
    else current) (Some "").

(** The template literal [`#${current}`]. *)
Definition hash_of (current : option string) : string :=
  "#" ++ default "null" current.

Definition updateActiveNavLink (lay : Layout) (doc : Document) : Document :=
  let navLinks := querySelectorAll (Descendant (Class "nav-links") (Tag "a")) doc in
  let current := current_section lay doc in
  forEach navLinks (fun link doc =>
    let doc := modify link (classList_remove "active") doc in
    if bool_decide (doc !! link ≫= getAttribute "href" = Some (hash_of current))
    then modify link (classList_add "active") doc
    else doc) doc.

(** ** Numbers *)
Module Num.

Inductive number := NaN | NegInf | Fin (q : Q) | PosInf.

Definition add (a b : number) : number :=
  match a, b with
  | NaN, _ | _, NaN => NaN
  | PosInf, NegInf | NegInf, PosInf => NaN
  | PosInf, _ | _, PosInf => PosInf
  | NegInf, _ | _, NegInf => NegInf
  | Fin x, Fin y => Fin (x + y)
  end.

Definition div (a b : number) : number :=
  match a, b with
  | NaN, _ | _, NaN => NaN
  | Fin x, Fin y =>
      if Qeq_bool y 0
      then (if Qeq_bool x 0 then NaN else if Qlt_bool 0 x then PosInf else NegInf)
      else Fin (x / y)
  | Fin _, _ => Fin 0
  | PosInf, Fin y => if Qlt_bool y 0 then NegInf else PosInf
  | NegInf, Fin y => if Qlt_bool y 0 then PosInf else NegInf
  | _, _ => NaN
  end.

(** [a >= b]; every comparison with [NaN] is false. *)
Definition geb (a b : number) : bool :=
  match a, b with
  | NaN, _ | _, NaN => false
  | PosInf, _ => true
  | _, NegInf => true
  | Fin x, Fin y => Qle_bool y x
  | _, _ => false
  end.

(** [Math.floor] *)
Definition floor (a : number) : number :=
  match a with
  | Fin x => Fin (inject_Z (Qfloor x))
  | _ => a
  end.

Definition of_Z (z : Z) : number := Fin (inject_Z z).

End Num.
Import Num.

(** [Number.prototype.toLocaleString] depends on the locale of the host. *)
Class Locale := toLocaleString : number -> string.

(** ** parseInt and String.prototype.replace(/,/g, '') *)

Definition is_space (a : Ascii.ascii) : bool :=
  let n := Z.of_N (Ascii.N_of_ascii a) in
  ((n =? 32) || ((9 <=? n) && (n <=? 13)))%Z.

Fixpoint skip_spaces (s : string) : string :=
  match s with
  | String a s' => if is_space a then skip_spaces s' else s
  | EmptyString => s
  end.

Definition digit_value (radix : Z) (a : Ascii.ascii) : option Z :=
  let n := Z.of_N (Ascii.N_of_ascii a) in
  let d := (if (48 <=? n) && (n <=? 57) then Some (n - 48)
            else if (97 <=? n) && (n <=? 122) then Some (n - 87)
            else if (65 <=? n) && (n <=? 90) then Some (n - 55)
            else None)%Z in
  d ≫= (fun v => if (v <? radix)%Z then Some v else None).

(** The value of the longest prefix of digits; [None] when it is empty. *)
Fixpoint digits (radix : Z) (s : string) (acc : option Z) : option Z :=
  match s with
  | String a s' =>
      match digit_value radix a with
      | Some d => digits radix s' (Some (radix * default 0 acc + d))%Z
      | None => acc
      end
  | EmptyString => acc
  end.

(** [parseInt(s)] without a radix: leading white space, a sign, a
    [0x] prefix, then the longest prefix of digits. *)
Definition parseInt (s : string) : number :=
  let s := skip_spaces s in
  let '(sign, s) :=
    match s with
    | String "-"%char s' => ((-1)%Z, s')
    | String "+"%char s' => (1%Z, s')
    | _ => (1%Z, s)
    end in
  let '(radix, s) :=
    match s with
    | String "0"%char (String "x"%char s')
    | String "0"%char (String "X"%char s') => (16%Z, s')
    | _ => (10%Z, s)
    end in
  match digits radix s None with
  | Some z => of_Z (sign * z)
  | None => NaN
  end.

Fixpoint remove_commas (s : string) : string :=
  match s with
  | String a s' =>
      if Ascii.eqb a ","%char then remove_commas s' else String a (remove_commas s')
  | EmptyString => EmptyString
  end.

(** ** The state the script's callbacks share *)

(** The variables an [animateCounter] closure captures. *)
Record Counter := mkCounter {
  cn_element : nat;
  cn_target : number;
  cn_increment : number;
  cn_current : number
}.

Record World := mkWorld {
  document : Document;
  intervals : gmap nat Counter;     (* the active setInterval timers *)
  nextTimer : nat;                  (* the next timer id setInterval returns *)
  statsObserved : list nat;         (* observation targets of statsObserver *)
  imagesObserved : list nat         (* observation targets of imageObserver *)
}.

Definition with_document (f : Document -> Document) (w : World) : World :=
  mkWorld (f (document w)) (intervals w) (nextTimer w)
          (statsObserved w) (imagesObserved w).

Definition with_intervals (f : gmap nat Counter -> gmap nat Counter) (w : World)
  : World :=
  mkWorld (document w) (f (intervals w)) (nextTimer w)
          (statsObserved w) (imagesObserved w).

Definition setInterval (c : Counter) (w : World) : World :=
  mkWorld (document w) (<[nextTimer w := c]> (intervals w)) (S (nextTimer w))
          (statsObserved w) (imagesObserved w).

Definition clearInterval (timer : nat) (w : World) : World :=
  with_intervals (delete timer) w.

(** [IntersectionObserver.observe] ignores a target it already has. *)
Definition observe (target : nat) (targets : list nat) : list nat :=
  if bool_decide (target ∈ targets) then targets else targets ++ [target].

Definition unobserve (target : nat) (targets : list nat) : list nat :=
  filter (fun t => t <> target) targets.

Definition with_statsObserved (f : list nat -> list nat) (w : World) : World :=
  mkWorld (document w) (intervals w) (nextTimer w)
          (f (statsObserved w)) (imagesObserved w).

Definition with_imagesObserved (f : list nat -> list nat) (w : World) : World :=
  mkWorld (document w) (intervals w) (nextTimer w)
          (statsObserved w) (f (imagesObserved w)).

Definition text_of (i : nat) (doc : Document) : string :=
  from_option textContent "" (doc !! i).

(** ** Animated counter *)

(** One run of the interval callback on the variables of its closure: the
    closure afterwards, the number whose rendering is written to the
    element, and whether [clearInterval] is called. *)
Definition counter_callback (c : Counter) : Counter * number * bool :=
  let current := Num.add (cn_current c) (cn_increment c) in
  let c := mkCounter (cn_element c) (cn_target c) (cn_increment c) current in
  if Num.geb current (cn_target c)
  then (c, cn_target c, true)
  else (c, Num.floor current, false).

(** The interval [timer] fires. A cleared interval never fires. *)
Definition interval_fires `{Locale} (timer : nat) (w : World) : World :=
  match intervals w !! timer with
  | None => w
  | Some c =>
      let '(c, shown, stop) := counter_callback c in
      let w := with_document
                 (modify (cn_element c) (set_textContent (toLocaleString shown))) w in
      if stop then clearInterval timer w
      else with_intervals (insert timer c) w
  end.

(** The variables of the closure [animateCounter] hands to [setInterval]. *)
Definition animateCounter_closure (element : nat) (target : number) : Counter :=
  let duration := Fin 2000 in
  let start := Fin 0 in
  let increment := Num.div target (Num.div duration (Fin 16)) in
  let current := start in
  mkCounter element target increment current.

Definition animateCounter (element : nat) (target : number) (w : World) : World :=
  setInterval (animateCounter_closure element target) w.

(** ** The counter over IEEE doubles

    [Num] computes exactly. Where the rounding of the doubles decides what
    [animateCounter] does, its closure and its callback are read off the
    source again, over the binary64 numbers of the host. *)
Module Double.

(** A whole number below [2^53] as a double. *)
Definition of_Z (n : Z) : float := PrimFloat.of_uint63 (Uint63.of_Z n).

(** [Math.floor]. A finite double is [m * 2^e] with a sign [s]; one with
    [0 <= e] has no fraction, and so have the zeros, the infinities and
    [NaN]. *)
Definition floor (x : float) : float :=
  match Prim2SF x with
  | S754_finite s m e =>
      if (0 <=? e)%Z then x
      else
        let n := Z.shiftr (Z.pos m) (- e) in
        if s then
          (if (Z.shiftl n (- e) =? Z.pos m)%Z then - of_Z n
           else - of_Z (n + 1))%float
        else of_Z n
  | _ => x
  end.

Class Locale := toLocaleString : float -> string.

Record Counter := mkCounter {
  cn_element : nat;
  cn_target : float;
  cn_increment : float;
  cn_current : float
}.

Record World := mkWorld {
  document : Document;
  intervals : gmap nat Counter;
  nextTimer : nat
}.

Definition setInterval (c : Counter) (w : World) : World :=
  mkWorld (document w) (<[nextTimer w := c]> (intervals w)) (S (nextTimer w)).

Definition clearInterval (timer : nat) (w : World) : World :=
  mkWorld (document w) (delete timer (intervals w)) (nextTimer w).

(** [current >= target] is [target <= current]; it is false when one of
    them is [NaN]. *)
Definition counter_callback (c : Counter) : Counter * float * bool :=
  let current := (cn_current c + cn_increment c)%float in
  let c := mkCounter (cn_element c) (cn_target c) (cn_increment c) current in
  if PrimFloat.leb (cn_target c) current
  then (c, cn_target c, true)
  else (c, floor current, false).

Definition interval_fires `{Locale} (timer : nat) (w : World) : World :=
  match intervals w !! timer with
  | None => w
  | Some c =>
      let '(c, shown, stop) := counter_callback c in
      let w := mkWorld (modify (cn_element c)
                          (set_textContent (toLocaleString shown)) (document w))
                       (intervals w) (nextTimer w) in
      if stop then clearInterval timer w
      else mkWorld (document w) (<[timer := c]> (intervals w)) (nextTimer w)
  end.

Definition animateCounter_closure (element : nat) (target : float) : Counter :=
  let duration := 2000%float in
  let start := 0%float in
  let increment := (target / (duration / 16))%float in
  let current := start in
  mkCounter element target increment current.

Definition animateCounter (element : nat) (target : float) (w : World) : World :=
  setInterval (animateCounter_closure element target) w.

End Double.

(** ** Intersection observers *)

Record Entry := mkEntry {
  entry_target : nat;
  isIntersecting : bool
}.

(** The callback of [statsObserver]. *)
Definition statsObserver_callback (entries : list Entry) (w : World) : World :=
  forEach entries (fun entry w =>
    if isIntersecting entry then
      let statNumbers :=
        querySelectorAll_from (entry_target entry) (Class "stat-number")
                              (document w) in
      let w := forEach statNumbers (fun stat w =>
        let target := parseInt (remove_commas (text_of stat (document w))) in
        let w := with_document (modify stat (set_textContent "0")) w in
        animateCounter stat target w) w in
      with_statsObserved (unobserve (entry_target entry)) w
    else w) w.

Definition initStatsObserver (w : World) : World :=
  match querySelector (Class "stats") (document w) with
  | Some statsSection => with_statsObserved (observe statsSection) w
  | None => w
  end.

(** [img.dataset.src] is [undefined] when the attribute is missing, and the
    [src] setter stores its argument converted to a string. *)
Definition dataset_src (e : Element) : string :=
  default "undefined" (getAttribute "data-src" e).

(** The callback of [imageObserver]. *)
Definition imageObserver_callback (entries : list Entry) (w : World) : World :=
  forEach entries (fun entry w =>
    if isIntersecting entry then
      let img := entry_target entry in
      let w := with_document
                 (modify img (fun e => setAttribute "src" (dataset_src e) e)) w in
      let w := with_document (modify img (classList_add "loaded")) w in
      with_imagesObserved (unobserve img) w
    else w) w.

Definition initLazyLoading (w : World) : World :=
  let images := querySelectorAll (TagAttr "img" "data-src") (document w) in
  forEach images (fun img w => with_imagesObserved (observe img) w) w.

(** What the browser hands to an observer's callback after a rendering
    update: one entry for each target the observer watches, telling whether
    the target meets the observer's threshold in that update. *)
Definition entries_of (targets : list nat) (visible : nat -> bool) : list Entry :=
  map (fun t => mkEntry t (visible t)) targets.

Definition stats_update (visible : nat -> bool) (w : World) : World :=
  statsObserver_callback (entries_of (statsObserved w) visible) w.

Definition images_update (visible : nat -> bool) (w : World) : World :=
  imageObserver_callback (entries_of (imagesObserved w) visible) w.

(** ** Smooth scrolling *)

(** [document.querySelector] on a selector given as a string: the string may
    fail to parse (a [SyntaxError] is thrown), match nothing ([null]) or
    match; the first match is returned. *)
Inductive QueryResult := SyntaxError | Null | Found (i : nat).

Class SelectorEngine := querySelector_string : string -> Document -> QueryResult.

Inductive ScrollBehavior := smooth | instant | auto_behavior.
Inductive ScrollBlock := start | center | end_block | nearest.

Record ScrollRequest := mkScrollRequest {
  scroll_target : nat;
  behavior : ScrollBehavior;
  block : ScrollBlock
}.

(** What a click leaves behind. *)
Record ClickOutcome := mkClickOutcome {
  defaultPrevented : bool;
  scrolledIntoView : option ScrollRequest;
  uncaught : bool
}.

(** The anchors [initSmoothScrolling] gives a click listener. *)
Definition initSmoothScrolling (doc : Document) : list nat :=
  querySelectorAll (TagAttrPrefix "a" "href" "#") doc.

(** The click listener; [this] is the anchor. A missing attribute reads as
    [null], which [querySelector] converts to the string ["null"]. *)
Definition anchor_onclick `{SelectorEngine} (this : nat) (doc : Document)
  : ClickOutcome :=
  (* e.preventDefault() has run when querySelector is called *)
  match querySelector_string
          (default "null" (doc !! this ≫= getAttribute "href")) doc with
  | SyntaxError => mkClickOutcome true None true
  | Null => mkClickOutcome true None false
  | Found target => mkClickOutcome true (Some (mkScrollRequest target smooth start)) false
  end.

(** A click on [anchor], given the anchors that have the listener. *)
Definition click `{SelectorEngine} (listeners : list nat) (anchor : nat)
  (doc : Document) : ClickOutcome :=
  if bool_decide (anchor ∈ listeners) then anchor_onclick anchor doc
  else mkClickOutcome false None false.



(** ** The script as a whole *)

(** What happens to the page once the script is set up. The two scroll
    handlers are debounced separately, so each runs as a task of its own. *)
Inductive Event :=
| RevealRuns (lay : Layout)             (* debounce(revealOnScroll, 10) fires *)
| NavRuns (lay : Layout)                (* debounce(updateActiveNavLink, 10) fires *)
| StatsUpdate (visible : nat -> bool)   (* statsObserver is notified *)
| ImagesUpdate (visible : nat -> bool)  (* imageObserver is notified *)
| IntervalFires (timer : nat)           (* a setInterval timer fires *)
| Clicked (anchor : nat)                (* scrolling only changes the layout *)
| Loaded.                               (* the window load event *)

Definition handle `{Locale} (ev : Event) (w : World) : World :=
  match ev with
  | RevealRuns lay => with_document (revealOnScroll lay) w
  | NavRuns lay => with_document (updateActiveNavLink lay) w
  | StatsUpdate visible => stats_update visible w
  | ImagesUpdate visible => images_update visible w
  | IntervalFires timer => interval_fires timer w
  | Clicked _ => w
  | Loaded =>
      match querySelector (Tag "body") (document w) with
      | Some body => with_document (modify body (classList_add "loaded")) w
      | None => w
      end
  end.

Definition run `{Locale} (evs : list Event) (w : World) : World :=
  forEach evs handle w.

(** The DOMContentLoaded listener; [lay] is the layout at that moment. *)
Definition DOMContentLoaded (lay : Layout) (doc : Document) : World :=
  let w := mkWorld doc ∅ 1 [] [] in
  let w := with_document (revealOnScroll lay) w in
  let w := initStatsObserver w in
  initLazyLoading w.

(** ** Debounce *)
Module Debounce.
Section WithArgs.
Context {Args : Type}.

(** A pending [setTimeout(later, wait)]: its id, the time it is due and the
    arguments [later] has captured. *)
Record Timeout := mkTimeout {
  tm_id : nat;
  tm_due : Z;
  tm_args : Args
}.

Record State := mkState {
  now : Z;                          (* the clock, in milliseconds *)
  pending : list Timeout;           (* in the order they were set *)
  next_id : nat;
  timeout : option nat;             (* the variable [timeout]; undefined at first *)
  executed : list (Z * Args)        (* the calls of [func]: when and with what *)
}.

Definition clearTimeout (id : option nat) (st : State) : State :=
  mkState (now st) (filter (fun t => Some (tm_id t) <> id) (pending st))
          (next_id st) (timeout st) (executed st).

(** The host takes the delay as a 32-bit signed integer (a [long]): it is
    reduced modulo [2^32] into the range from [-2^31] to [2^31 - 1], and a
    negative delay counts as zero. *)
Definition to_long (z : Z) : Z := ((z + 2 ^ 31) mod 2 ^ 32 - 2 ^ 31)%Z.

Definition delay_of (wait : Z) : Z := Z.max 0 (to_long wait).

Definition setTimeout (wait : Z) (args : Args) (st : State) : nat * State :=
  (next_id st,
   mkState (now st)
           (pending st ++ [mkTimeout (next_id st) (now st + delay_of wait) args])
           (S (next_id st)) (timeout st) (executed st)).

Definition later (args : Args) (st : State) : State :=
  let st := clearTimeout (timeout st) st in
  mkState (now st) (pending st) (next_id st) (timeout st)
          (executed st ++ [(now st, args)]).

(** The function [debounce(func, wait)] returns, called with [args]. *)
Definition executedFunction (wait : Z) (args : Args) (st : State) : State :=
  let st := clearTimeout (timeout st) st in
  let '(id, st) := setTimeout wait args st in
  mkState (now st) (pending st) (next_id st) (Some id) (executed st).

(** The pending timeout that is due first; among equals, the one set first. *)
Fixpoint earliest (l : list Timeout) : option Timeout :=
  match l with
  | [] => None
  | t :: l =>
      match earliest l with
      | Some t' => if (tm_due t' <? tm_due t)%Z then Some t' else Some t
      | None => Some t
      end
  end.

(** The event loop runs the timeouts that are due up to [until], each at
    the time it is due. *)
Fixpoint run_timers (fuel : nat) (until : Z) (st : State) : State :=
  match fuel with
  | O => st
  | S fuel =>
      match earliest (pending st) with
      | Some t =>
          if (tm_due t <=? until)%Z then
            let st := mkState (Z.max (now st) (tm_due t))
                        (filter (fun t' => tm_id t' <> tm_id t) (pending st))
                        (next_id st) (timeout st) (executed st) in
            run_timers fuel until (later (tm_args t) st)
          else st
      | None => st
      end
  end.

(** Time passes until [until]. No callback sets a timeout, so one round
    for each pending timeout is enough. *)
Definition advance (until : Z) (st : State) : State :=
  let st := run_timers (length (pending st)) until st in
  mkState (Z.max (now st) until) (pending st) (next_id st) (timeout st)
          (executed st).

(** The debounced function is called at time [t], by a task of its own:
    the timeouts due by then have run. *)
Definition call_at (wait : Z) (call : Z * Args) (st : State) : State :=
  executedFunction wait (snd call) (advance (fst call) st).

Definition calls_at (wait : Z) (calls : list (Z * Args)) (st : State) : State :=
  forEach calls (call_at wait) st.

(** A task that starts at time [t] and calls the debounced function with
    [a] and then with each of [more]. A timeout never runs while a task
    does: the timeouts that are due run before the task starts, and those
    the task sets are dated from its start. *)
Definition task_at (wait : Z) (task : Z * (Args * list Args)) (st : State)
  : State :=
  let '(t, (a, more)) := task in
  forEach (a :: more) (executedFunction wait) (advance t st).

Definition tasks_at (wait : Z) (tasks : list (Z * (Args * list Args)))
  (st : State) : State :=
  forEach tasks (task_at wait) st.

(** A burst: calls in time order, each less than [wait] after the one
    before; [prev] is the time of the call before, if any. *)
Fixpoint burst (wait : Z) (prev : option Z) (calls : list (Z * Args)) : bool :=
  match calls with
  | [] => true
  | (t, _) :: calls =>
      match prev with
      | Some p => ((p <=? t) && (t <? p + wait))%Z
      | None => true
      end && burst wait (Some t) calls
  end.

End WithArgs.
Arguments Timeout : clear implicits.
Arguments State : clear implicits.
End Debounce.


(** ** What one round of a loop does to the element it visits *)

Definition reveal_one (lay : Layout) (element : nat) (e : Element) : Element :=
  if Qlt_bool (boundingTop lay element) (inject_Z (innerHeight lay) - 100)%Q
  then classList_add "active" e else e.

Definition mark_link (current : option string) (e : Element) : Element :=
  let e := classList_remove "active" e in
  if bool_decide (getAttribute "href" e = Some (hash_of current))
  then classList_add "active" e else e.

(** The test of the first loop of [updateActiveNavLink]. *)
Definition section_reached (lay : Layout) (section : nat) : bool :=
  Qle_bool (inject_Z (offsetTop lay section - 200)) (pageYOffset lay).

(** ** A page to run the script on *)
Module Sample.

Definition element (tag : string) (parent : option nat)
  (attrs : list (string * string)) (classes : list string) (text : string)
  : Element :=
  mkElement tag parent (list_to_map attrs) (list_to_set classes) text.

Definition page : Document := [
  element "body" None [] [] "";                                          (* 0 *)
  element "ul" (Some 0) [] ["nav-links"] "";                             (* 1 *)
  element "a" (Some 1) [("href", "#home")] [] "Home";                    (* 2 *)
  element "a" (Some 1) [("href", "#stats")] ["reveal"] "Stats";          (* 3 *)
  element "a" (Some 1) [("href", "#")] [] "Top";                         (* 4 *)
  element "section" (Some 0) [("id", "home")] ["reveal"] "";             (* 5 *)
  element "img" (Some 5)
          [("src", "placeholder.png"); ("data-src", "drone.png")] [] ""; (* 6 *)
  element "section" (Some 0) [("id", "stats")] ["stats"; "reveal"] "";   (* 7 *)
  element "span" (Some 7) [] ["stat-number"] "1,250";                    (* 8 *)
  element "span" (Some 7) [] ["stat-number"] "24/7";                     (* 9 *)
  element "span" (Some 7) [] ["stat-number"] "<1s"                       (* 10 *)
].

(** The same page with a second list of links below its sections. *)
Definition page_with_footer : Document :=
  (page ++ [
    element "ul" (Some 0) [] ["nav-links"] "";                           (* 11 *)
    element "a" (Some 11) [("href", "#home")] [] "Back to the top"       (* 12 *)
  ])%list.

(** Distance of each element from the top of the page. *)
Definition tops (i : nat) : Z :=
  match i with
  | 5 | 6 => 300
  | 7 | 8 | 9 | 10 => 1500
  | _ => 0
  end.

(** The layout when the page is scrolled down by [y] pixels in a window
    800 pixels high. *)
Definition scrolled (y : Z) : Layout :=
  mkLayout 800 (inject_Z y) (fun i => inject_Z (tops i - y)) tops.

(** Decimal digits with a comma between groups of three. *)
Definition pad3 (n : N) : string :=
  (if (n <? 10)%N then "00" else if (n <? 100)%N then "0" else "") ++ pretty n.

Fixpoint grouped (fuel : nat) (n : N) : string :=
  match fuel with
  | O => pretty n
  | S fuel =>
      if (n <? 1000)%N then pretty n
      else grouped fuel (n / 1000)%N ++ "," ++ pad3 (n mod 1000)%N
  end.

Definition fraction (n : N) : string :=
  if (n =? 0)%N then ""
  else if (n mod 100 =? 0)%N then "." ++ pretty (n / 100)%N
  else if (n mod 10 =? 0)%N then "." ++ (if (n <? 100)%N then "0" else "") ++ pretty (n / 10)%N
  else "." ++ pad3 n.

(** The rendering of the [en-US] locale: at most three fraction digits. *)
Definition en_US : Locale := fun x =>
  match x with
  | NaN => "NaN"
  | PosInf => "Infinity"
  | NegInf => "-Infinity"
  | Fin q =>
      let r := Z.to_N (Qfloor (Qabs q * 1000 + (1 # 2))) in
      (if Qlt_bool q 0 && negb (r =? 0)%N then "-" else "")
      ++ grouped (N.to_nat (N.log2 r)) (r / 1000)%N ++ fraction (r mod 1000)%N
  end.

Definition is_name_start (a : Ascii.ascii) : bool :=
  let n := Z.of_N (Ascii.N_of_ascii a) in
  (((97 <=? n) && (n <=? 122)) || ((65 <=? n) && (n <=? 90)) || (n =? 95))%Z.

Definition is_name_char (a : Ascii.ascii) : bool :=
  let n := Z.of_N (Ascii.N_of_ascii a) in
  is_name_start a || (((48 <=? n) && (n <=? 57)) || (n =? 45))%Z.

Fixpoint all_chars (p : Ascii.ascii -> bool) (s : string) : bool :=
  match s with
  | String a s' => p a && all_chars p s'
  | EmptyString => true
  end.

Definition is_name (s : string) : bool :=
  match s with
  | String a s' => is_name_start a && all_chars is_name_char s'
  | EmptyString => false
  end.

Definition first_match (p : Element -> bool) (doc : Document) : QueryResult :=
  match filter (fun i => on_element doc i p) (seq 0 (length doc)) with
  | i :: _ => Found i
  | [] => Null
  end.

(** A selector engine for the two simplest selectors, [#name] and [name];
    it rejects every other string. *)
Definition simple_selectors : SelectorEngine := fun sel doc =>
  match sel with
  | String "#"%char name =>
      if is_name name
      then first_match (fun e => bool_decide (getAttribute "id" e = Some name)) doc
      else SyntaxError
  | _ =>
      if is_name sel
      then first_match (fun e => String.eqb (tagName e) sel) doc
      else SyntaxError
  end.

End Sample.

(** ** Notions the properties are stated with *)

Abbreviation sections_of doc := (querySelectorAll (TagAttr "section" "id") doc).
Abbreviation navLinks_of doc :=
  (querySelectorAll (Descendant (Class "nav-links") (Tag "a")) doc).

(** A [.reveal] element carries [active] after a call exactly when it is
    above the reveal line. *)
Definition reveal_toggles (lay : Layout) (doc : Document) : Prop :=
  forall j e', matches doc (Class "reveal") j = true ->
    revealOnScroll lay doc !! j = Some e' ->
    ("active" ∈ classList e'
     <-> (boundingTop lay j < inject_Z (innerHeight lay) - 100)%Q).

(** Element [j] carries [active] in [w] and still does after [evs]. *)
Definition stays_active `{Locale} (evs : list Event) (w : World) (j : nat) : Prop :=
  forall e, document w !! j = Some e -> "active" ∈ classList e ->
    exists e', document (run evs w) !! j = Some e' /\ "active" ∈ classList e'.

(** Two states of an element that differ at most in text, attributes and
    the classes [active] and [loaded]. *)
Definition similar (e e' : Element) : Prop :=
  tagName e' = tagName e
  /\ parentNode e' = parentNode e
  /\ forall c, c <> "active" -> c <> "loaded" ->
       (c ∈ classList e' <-> c ∈ classList e).

(** ... and [active] was not taken away. *)
Definition extends (e e' : Element) : Prop :=
  similar e e' /\ ("active" ∈ classList e -> "active" ∈ classList e').

(** A relation between the states of an element before and after that the
    mutations the handler of [ev] performs respect. *)
Definition respects (R : Element -> Element -> Prop) (ev : Event) : Prop :=
  match ev with
  | RevealRuns _ => forall e, R e (classList_add "active" e)
  | NavRuns _ =>
      (forall e, R e (classList_remove "active" e))
      /\ (forall e, R e (classList_add "active" e))
  | StatsUpdate _ | IntervalFires _ => forall t e, R e (set_textContent t e)
  | ImagesUpdate _ =>
      (forall e, R e (setAttribute "src" (dataset_src e) e))
      /\ (forall e, R e (classList_add "loaded" e))
  | Clicked _ => True
  | Loaded => forall e, R e (classList_add "loaded" e)
  end.

(** What the callback of [imageObserver] does to an image that intersects. *)
Definition load_image (e : Element) : Element :=
  classList_add "loaded" (setAttribute "src" (dataset_src e) e).

(** The event is a notification of [imageObserver] in which [img]
    intersects. *)
Definition reports (ev : Event) (img : nat) : bool :=
  match ev with
  | ImagesUpdate visible => visible img
  | _ => false
  end.

Definition same_attributes (e e' : Element) : Prop :=
  attributes e' = attributes e.

(** The debounced function has been called last at time [t] with [a], and
    the timeout that call set is the only one pending; [log] is what
    [func] has been called with so far. *)
Definition armed {Args : Type} (wait : Z) (st : Debounce.State Args) (t : Z)
  (a : Args) (log : list (Z * Args)) : Prop :=
  exists id,
    Debounce.pending st = [Debounce.mkTimeout id (t + wait) a]
    /\ Debounce.timeout st = Some id
    /\ Debounce.now st = t
    /\ Debounce.executed st = log.

(** One round of the inner loop of the callback of [statsObserver]. *)
Definition start_counter (stat : nat) (w : World) : World :=
  let target := parseInt (remove_commas (text_of stat (document w))) in
  let w := with_document (modify stat (set_textContent "0")) w in
  animateCounter stat target w.

(** Every character of [s] is a digit in base [radix]. *)
Fixpoint all_digits (radix : Z) (s : string) : bool :=
  match s with
  | String a s' => bool_decide (is_Some (digit_value radix a)) && all_digits radix s'
  | EmptyString => true
  end.

(** The calls of [func] a sequence of calls to the debounced function leads
    to, when the call before was made at time [p] with [b] and [w] is the
    delay: a call is dropped when the next one comes less than [w] later. *)
Fixpoint settled_from {Args : Type} (w : Z) (p : Z) (b : Args)
  (calls : list (Z * Args)) : list (Z * Args) :=
  match calls with
  | [] => [((p + w)%Z, b)]
  | (t, a) :: rest =>
      ((if (t <? p + w)%Z then [] else [((p + w)%Z, b)])
       ++ settled_from w t a rest)%list
  end.

(** What remains of a task for the timeouts: its last call. *)
Definition last_call {Args : Type} (task : Z * (Args * list Args)) : Z * Args :=
  let '(t, (a, more)) := task in (t, List.last more a).

Definition settled {Args : Type} (wait : Z)
  (tasks : list (Z * (Args * list Args))) : list (Z * Args) :=
  match map last_call tasks with
  | [] => []
  | (t, a) :: rest => settled_from (Debounce.delay_of wait) t a rest
  end.

(** The tasks start one after the other, each later than the one before
    and none at the very moment the timeout of the one before is due;
    [prev] is the start of the task before, if any, and [w] the delay. *)
Fixpoint spaced {Args : Type} (w : Z) (prev : option Z)
  (tasks : list (Z * (Args * list Args))) : bool :=
  match tasks with
  | [] => true
  | (t, _) :: rest =>
      match prev with
      | Some p => ((p <? t) && negb (t =? p + w))%Z
      | None => true
      end && spaced w (Some t) rest
  end.

(** At most one timeout is pending, and it is the one the variable
    [timeout] holds. *)
Definition one_timeout {Args : Type} (st : Debounce.State Args) : Prop :=
  Debounce.pending st = []
  \/ exists id due a,
       Debounce.pending st = [Debounce.mkTimeout id due a]
       /\ Debounce.timeout st = Some id.

(** Two states of an element that differ at most in the class [active]. *)
Definition differs_in_active (e e' : Element) : Prop :=
  tagName e' = tagName e
  /\ parentNode e' = parentNode e
  /\ attributes e' = attributes e
  /\ textContent e' = textContent e
  /\ forall c, c <> "active" -> (c ∈ classList e' <-> c ∈ classList e).

(** What no handler of the script changes in an element: its tag, its
    parent, its attributes other than [src] and [class] (which the class
    list is written to) and its classes other than [active] and [loaded]. *)
Definition kept (e e' : Element) : Prop :=
  tagName e' = tagName e
  /\ parentNode e' = parentNode e
  /\ (forall a, a <> "src" -> a <> "class" ->
        getAttribute a e' = getAttribute a e)
  /\ forall c, c <> "active" -> c <> "loaded" ->
       (c ∈ classList e' <-> c ∈ classList e).

(** None of the elements [l] has a child element. Writing [textContent]
    replaces the children of an element; for such an element these are
    text alone, and no element leaves the document. *)
Definition childless (doc : Document) (l : list nat) : bool :=
  forallb (fun e => from_option (fun p => bool_decide (p ∉ l)) true (parentNode e))
          doc.

(** Element [i] is none of the elements [l] and contains none of them. The
    text an element reads as is that of all it contains, so that writing
    the text of one of [l] changes what every element around it reads
    as. *)
Definition apart_from (doc : Document) (l : list nat) (i : nat) : Prop :=
  (i ∉ l) /\ Forall (fun s => i ∉ ancestors (length doc) doc s) l.

(** The statistics of the section the stats observer watches: the
    [.stat-number] descendants of the first element with class [stats]. *)
Definition watched_stats (doc : Document) : list nat :=
  from_option (fun section => querySelectorAll_from section (Class "stat-number") doc)
              [] (querySelector (Class "stats") doc).

(** Every counter runs on one of the elements [S], and so will every
    counter the stats observer may still start. *)
Definition counters_within (S : list nat) (w : World) : Prop :=
  (forall timer c, intervals w !! timer = Some c -> cn_element c ∈ S)
  /\ (statsObserved w = []
      \/ exists section,
           statsObserved w = [section]
           /\ forall stat,
                stat ∈ querySelectorAll_from section (Class "stat-number")
                                              (document w) ->
                stat ∈ S).

Definition same_text (e e' : Element) : Prop := textContent e' = textContent e.

(** ** Mobile navigation *)
Module MobileNavigation.

(** The variables of the scroll listener of [initMobileNavigation], and the
    inline style it writes. *)
Record State := mkState {
  nav : option nat;                 (* what querySelector('nav') found *)
  lastScrollTop : Q;
  transform : option string         (* nav.style.transform, once written *)
}.

Definition initMobileNavigation (doc : Document) : State :=
  mkState (querySelector (Tag "nav") doc) 0 None.

(** [a || b] on numbers that are not [NaN]: [a] unless it is zero. *)
Definition or_else (a b : Q) : Q := if Qeq_bool a 0 then b else a.

(** One scroll event, given [window.pageYOffset] and
    [document.documentElement.scrollTop]. Without a [nav] element the
    assignment to [nav.style] throws a [TypeError] ([None]) before
    [lastScrollTop] is updated. *)
Definition on_scroll (position : Q * Q) (st : State) : option State :=
  let scrollTop := or_else (fst position) (snd position) in
  match nav st with
  | None => None
  | Some _ =>
      let style :=
        if Qlt_bool (lastScrollTop st) scrollTop && Qlt_bool 100 scrollTop
        then "translateY(-100%)"
        else "translateY(0)" in
      Some (mkState (nav st) scrollTop (Some style))
  end.

(** A sequence of scroll events; a listener that throws leaves the state
    as it was. *)
Definition scrolls (positions : list (Q * Q)) (st : State) : State :=
  forEach positions (fun position st => default st (on_scroll position st)) st.

End MobileNavigation.

(** What a notification of the image observer does to one element. *)
Definition image_after (visible : nat -> bool) (w : World) (i : nat)
  : option Element :=
  if bool_decide (i ∈ imagesObserved w /\ visible i = true)
  then load_image <$> document w !! i
  else document w !! i.
(** * Properties *)

(** ** Loops and selectors *)

Lemma forEach_nil {A S : Type} (f : A -> S -> S) (s : S) : forEach [] f s = s.
Proof. reflexivity. Qed.

Lemma forEach_cons {A S : Type} (f : A -> S -> S) (a : A) (l : list A) (s : S) :
  forEach (a :: l) f s = forEach l f (f a s).
Proof. reflexivity. Qed.

Lemma forEach_app {A S : Type} (f : A -> S -> S) (l1 l2 : list A) (s : S) :
  forEach (l1 ++ l2) f s = forEach l2 f (forEach l1 f s).
Proof. unfold forEach. apply foldl_app. Qed.

Lemma forEach_ext_in {A S : Type} (f g : A -> S -> S) (l : list A) (s : S) :
  (forall a s, a ∈ l -> f a s = g a s) -> forEach l f s = forEach l g s.
Proof.
  revert s. induction l as [|a l IH]; intros s Hfg; [reflexivity|].
  rewrite !forEach_cons, Hfg by left.
  apply IH. intros b s' Hb. apply Hfg. by right.
Qed.

(** A loop that mutates each visited element through its own handle. *)
Lemma forEach_modify_lookup (g : nat -> Element -> Element) (l : list nat)
  (doc : Document) (j : nat) :
  NoDup l ->
  forEach l (fun i d => modify i (g i) d) doc !! j
  = if bool_decide (j ∈ l) then g j <$> doc !! j else doc !! j.
Proof.
  intros Hnd. revert doc. induction Hnd as [|i l Hi Hnd IH]; intros doc.
  - reflexivity.
  - rewrite forEach_cons, IH. unfold modify.
    destruct (decide (j = i)) as [->|Hne].
    + rewrite (bool_decide_eq_false_2 (i ∈ l)) by done.
      rewrite (bool_decide_eq_true_2 (i ∈ i :: l)) by left.
      apply list_lookup_alter_eq.
    + rewrite list_lookup_alter_ne by done.
      destruct (decide (j ∈ l)) as [Hj|Hj].
      * rewrite !bool_decide_eq_true_2; [done| by right | done].
      * rewrite !bool_decide_eq_false_2; [done| | done].
        intros [->|?]%elem_of_cons; done.
Qed.

Lemma matches_lt (doc : Document) (sel : Selector) (i : nat) :
  matches doc sel i = true -> i < length doc.
Proof.
  revert i. induction sel as [c|t|t a|t a v|anc _ sub IH]; intros i; simpl;
    try (unfold on_element; destruct (doc !! i) eqn:E; simpl;
         [intros _; by eapply lookup_lt_Some | discriminate]).
  intros [H _]%andb_true_iff. by apply IH.
Qed.

Lemma elem_of_querySelectorAll (sel : Selector) (doc : Document) (i : nat) :
  i ∈ querySelectorAll sel doc <-> matches doc sel i = true.
Proof.
  unfold querySelectorAll. rewrite list_elem_of_filter, elem_of_seq.
  split.
  - intros [H _]. by apply Is_true_true.
  - intros H. split; [by apply Is_true_true|].
    apply matches_lt in H. lia.
Qed.

Lemma NoDup_querySelectorAll (sel : Selector) (doc : Document) :
  NoDup (querySelectorAll sel doc).
Proof. apply NoDup_filter, NoDup_seq. Qed.

Lemma Qlt_bool_iff (a b : Q) : Qlt_bool a b = true <-> (a < b)%Q.
Proof.
  unfold Qlt_bool. rewrite negb_true_iff.
  destruct (Qle_bool b a) eqn:E.
  - apply Qle_bool_iff in E. split; [discriminate|]. intros. lra.
  - split; [intros _|reflexivity].
    destruct (Qlt_le_dec a b) as [|Hle]; [done|].
    apply Qle_bool_iff in Hle. congruence.
Qed.

(** ** Scroll reveal *)

Lemma revealOnScroll_lookup (lay : Layout) (doc : Document) (j : nat) :
  revealOnScroll lay doc !! j
  = if matches doc (Class "reveal") j then reveal_one lay j <$> doc !! j
    else doc !! j.
Proof.
  unfold revealOnScroll.
  rewrite (forEach_ext_in _ (fun i d => modify i (reveal_one lay i) d)).
  - rewrite forEach_modify_lookup by apply NoDup_querySelectorAll.
    destruct (matches doc (Class "reveal") j) eqn:E.
    + rewrite bool_decide_eq_true_2; [done|]. by apply elem_of_querySelectorAll.
    + rewrite bool_decide_eq_false_2; [done|].
      rewrite elem_of_querySelectorAll. congruence.
  - intros i d _. unfold reveal_one, modify.
    destruct (Qlt_bool _ _); [done|].
    symmetry. apply list_alter_id. done.
Qed.

Lemma elem_of_classList_add (c d : string) (e : Element) :
  c ∈ classList (classList_add d e) <-> c = d \/ c ∈ classList e.
Proof.
  unfold classList_add; simpl.
  rewrite elem_of_union, elem_of_singleton. tauto.
Qed.

Lemma elem_of_classList_remove (c d : string) (e : Element) :
  c ∈ classList (classList_remove d e) <-> c <> d /\ c ∈ classList e.
Proof.
  unfold classList_remove; simpl.
  rewrite elem_of_difference, elem_of_singleton. tauto.
Qed.

Lemma classList_reveal_one (lay : Layout) (j : nat) (e : Element) (c : string) :
  c ∈ classList (reveal_one lay j e)
  <-> c ∈ classList e
      \/ (c = "active"
          /\ (boundingTop lay j < inject_Z (innerHeight lay) - 100)%Q).
Proof.
  unfold reveal_one. destruct (Qlt_bool _ _) eqn:E.
  - apply Qlt_bool_iff in E. rewrite elem_of_classList_add. tauto.
  - split; [tauto|]. intros [H|[_ H]]; [exact H|].
    apply Qlt_bool_iff in H. congruence.
Qed.

(** C2, counterexample: section 5 of the sample page is revealed while the
    page is at the top; when it has been scrolled far below the window
    (top 300 - (-1000) > 800 - 100) the next call leaves the class on. *)
Lemma revealOnScroll_toggle_counterexample :
  ~ reveal_toggles (Sample.scrolled (-1000))
                   (revealOnScroll (Sample.scrolled 0) Sample.page).
Proof.
  intros H.
  specialize (H 5 _ eq_refl eq_refl). destruct H as [H _].
  assert (Hlt : (1300 < 700)%Q); [|lra].
  apply H. apply (bool_decide_unpack _). vm_compute. exact I.
Qed.

(** C2, as amended: [revealOnScroll] adds [active] to every [.reveal]
    element above the reveal line and never removes it, so after a call
    the element carries the class exactly when it carried it before the
    call or its top is less than the window height minus 100; the rest of
    the element is untouched. *)
Theorem revealOnScroll_adds_active (lay : Layout) (doc : Document) (j : nat)
  (e : Element) :
  matches doc (Class "reveal") j = true ->
  doc !! j = Some e ->
  exists e', revealOnScroll lay doc !! j = Some e'
    /\ ("active" ∈ classList e'
        <-> "active" ∈ classList e
            \/ (boundingTop lay j < inject_Z (innerHeight lay) - 100)%Q).
Proof.
  intros Hm He. exists (reveal_one lay j e). split.
  - by rewrite revealOnScroll_lookup, Hm, He.
  - rewrite classList_reveal_one. tauto.
Qed.

Lemma revealOnScroll_adds_active_witness :
  exists e', revealOnScroll (Sample.scrolled 0) Sample.page !! 5 = Some e'
    /\ ("active" ∈ classList e'
        <-> "active" ∈ classList (Sample.element "section" (Some 0)
                                     [("id", "home")] ["reveal"] "")
            \/ (boundingTop (Sample.scrolled 0) 5
                < inject_Z (innerHeight (Sample.scrolled 0)) - 100)%Q).
Proof.
  apply (revealOnScroll_adds_active (Sample.scrolled 0) Sample.page 5);
    reflexivity.
Defined.

(** ** Active navigation link *)

(** A loop that overwrites a variable in the rounds that pass a test leaves
    the value of the last such round. *)
Lemma forEach_overwrite {A V : Type} (test : A -> bool) (value : A -> V)
  (l : list A) (init : V) :
  forEach l (fun a cur => if test a then value a else cur) init
  = from_option value init (last (filter (fun a => test a) l)).
Proof.
  induction l as [|a l IH] using rev_ind; [reflexivity|].
  rewrite forEach_app, filter_app, forEach_cons, forEach_nil.
  destruct (test a) eqn:E.
  - rewrite filter_cons_True by (by apply Is_true_true).
    by rewrite filter_nil, last_snoc.
  - rewrite filter_cons_False by (rewrite Is_true_true; congruence).
    by rewrite filter_nil, app_nil_r.
Qed.

Lemma current_section_last (lay : Layout) (doc : Document) :
  current_section lay doc
  = from_option (fun s => doc !! s ≫= getAttribute "id") (Some "")
      (last (filter (fun s => section_reached lay s) (sections_of doc))).
Proof.
  unfold current_section.
  apply (forEach_overwrite (section_reached lay)
           (fun s => doc !! s ≫= getAttribute "id")).
Qed.

Lemma section_has_id (doc : Document) (s : nat) :
  s ∈ sections_of doc -> is_Some (doc !! s ≫= getAttribute "id").
Proof.
  rewrite elem_of_querySelectorAll. simpl. unfold on_element.
  destruct (doc !! s) as [e|]; simpl; [|discriminate].
  intros [_ H]%andb_true_iff. unfold hasAttribute in H.
  by apply bool_decide_eq_true in H.
Qed.

Lemma updateActiveNavLink_lookup (lay : Layout) (doc : Document) (j : nat) :
  updateActiveNavLink lay doc !! j
  = if matches doc (Descendant (Class "nav-links") (Tag "a")) j
    then mark_link (current_section lay doc) <$> doc !! j
    else doc !! j.
Proof.
  unfold updateActiveNavLink.
  rewrite (forEach_ext_in _
             (fun i d => modify i (mark_link (current_section lay doc)) d)).
  - rewrite forEach_modify_lookup by apply NoDup_querySelectorAll.
    destruct (matches doc _ j) eqn:E.
    + rewrite bool_decide_eq_true_2; [done|]. by apply elem_of_querySelectorAll.
    + rewrite bool_decide_eq_false_2; [done|].
      rewrite elem_of_querySelectorAll. congruence.
  - intros i d _. unfold modify. rewrite list_lookup_alter_eq.
    destruct (d !! i) as [e|] eqn:Ei; simpl.
    + unfold mark_link.
      destruct (bool_decide (getAttribute "href" (classList_remove "active" e)
                             = Some _)) eqn:Eh.
      * rewrite list_alter_alter_eq. apply list_alter_ext; [|done].
        intros x Hx. assert (x = e) as -> by congruence. simpl.
        by rewrite Eh.
      * apply list_alter_ext; [|done].
        intros x Hx. assert (x = e) as -> by congruence. by rewrite Eh.
    + apply list_alter_ext; [|done]. intros x Hx. congruence.
Qed.

Lemma classList_mark_link (current : option string) (e : Element) :
  "active" ∈ classList (mark_link current e)
  <-> getAttribute "href" e = Some (hash_of current).
Proof.
  unfold mark_link.
  change (getAttribute "href" (classList_remove "active" e))
    with (getAttribute "href" e).
  case_bool_decide as Hh.
  - rewrite elem_of_classList_add. tauto.
  - rewrite elem_of_classList_remove. tauto.
Qed.

(** What [updateActiveNavLink] leaves on the navigation links, given the
    value [current] ends with. *)
Lemma updateActiveNavLink_links (lay : Layout) (doc : Document) (link : nat)
  (e : Element) :
  link ∈ navLinks_of doc ->
  doc !! link = Some e ->
  exists e', updateActiveNavLink lay doc !! link = Some e'
    /\ ("active" ∈ classList e'
        <-> getAttribute "href" e = Some (hash_of (current_section lay doc))).
Proof.
  intros Hl He. apply elem_of_querySelectorAll in Hl.
  exists (mark_link (current_section lay doc) e). split.
  - by rewrite updateActiveNavLink_lookup, Hl, He.
  - apply classList_mark_link.
Qed.

(** C5: the id marked is the id of the last section, in document order,
    whose [offsetTop - 200] is at most [window.pageYOffset]; after the call
    a link of [.nav-links] carries [active] exactly when its [href] is [#]
    followed by that id. *)
Theorem updateActiveNavLink_marks_last_section (lay : Layout) (doc : Document)
  (s : nat) :
  last (filter (fun s => section_reached lay s) (sections_of doc)) = Some s ->
  exists id,
    doc !! s ≫= getAttribute "id" = Some id
    /\ current_section lay doc = Some id
    /\ forall link e, link ∈ navLinks_of doc -> doc !! link = Some e ->
         exists e', updateActiveNavLink lay doc !! link = Some e'
           /\ ("active" ∈ classList e' <-> getAttribute "href" e = Some ("#" ++ id)).
Proof.
  intros Hlast.
  assert (Hs : s ∈ sections_of doc).
  { apply last_Some_elem_of in Hlast. by apply list_elem_of_filter in Hlast as [_ ?]. }
  destruct (section_has_id doc s Hs) as [id Hid].
  assert (Hcur : current_section lay doc = Some id).
  { by rewrite current_section_last, Hlast. }
  exists id. split; [done|]. split; [done|].
  intros link e Hl He.
  destruct (updateActiveNavLink_links lay doc link e Hl He) as (e' & He' & Hact).
  exists e'. split; [done|]. by rewrite Hact, Hcur.
Qed.

Lemma updateActiveNavLink_marks_last_section_witness :
  exists id,
    Sample.page !! 7 ≫= getAttribute "id" = Some id
    /\ current_section (Sample.scrolled 1400) Sample.page = Some id
    /\ forall link e, link ∈ navLinks_of Sample.page ->
         Sample.page !! link = Some e ->
         exists e', updateActiveNavLink (Sample.scrolled 1400) Sample.page !! link
                    = Some e'
           /\ ("active" ∈ classList e' <-> getAttribute "href" e = Some ("#" ++ id)).
Proof.
  apply (updateActiveNavLink_marks_last_section (Sample.scrolled 1400)
           Sample.page 7).
  vm_compute. reflexivity.
Defined.

(** C10: while [window.pageYOffset] is less than [offsetTop - 200] for every
    section with an id, [current] stays the empty string, and after the
    call a link of [.nav-links] carries [active] exactly when its [href] is
    ["#"]. *)
Theorem updateActiveNavLink_above_every_section (lay : Layout) (doc : Document) :
  (forall s, s ∈ sections_of doc ->
     (pageYOffset lay < inject_Z (offsetTop lay s - 200))%Q) ->
  current_section lay doc = Some ""
  /\ forall link e, link ∈ navLinks_of doc -> doc !! link = Some e ->
       exists e', updateActiveNavLink lay doc !! link = Some e'
         /\ ("active" ∈ classList e' <-> getAttribute "href" e = Some "#").
Proof.
  intros Habove.
  assert (Hcur : current_section lay doc = Some "").
  { rewrite current_section_last.
    destruct (last _) as [s|] eqn:Hlast; [|reflexivity].
    apply last_Some_elem_of, list_elem_of_filter in Hlast as [Hr Hs].
    apply Habove in Hs. apply Is_true_true in Hr.
    unfold section_reached in Hr. apply Qle_bool_iff in Hr. lra. }
  split; [done|]. intros link e Hl He.
  destruct (updateActiveNavLink_links lay doc link e Hl He) as (e' & He' & Hact).
  exists e'. split; [done|]. by rewrite Hact, Hcur.
Qed.

Lemma updateActiveNavLink_above_every_section_witness :
  current_section (Sample.scrolled 0) Sample.page = Some ""
  /\ forall link e, link ∈ navLinks_of Sample.page ->
       Sample.page !! link = Some e ->
       exists e', updateActiveNavLink (Sample.scrolled 0) Sample.page !! link
                  = Some e'
         /\ ("active" ∈ classList e' <-> getAttribute "href" e = Some "#").
Proof.
  apply (updateActiveNavLink_above_every_section (Sample.scrolled 0) Sample.page).
  intros s Hs.
  assert (Hs' : s ∈ [5; 7]) by exact Hs.
  apply elem_of_cons in Hs' as [->|Hs']; [vm_compute; reflexivity|].
  apply elem_of_cons in Hs' as [->|Hs']; [vm_compute; reflexivity|].
  by apply elem_of_nil in Hs'.
Defined.

(** ** Reveals and the other handlers *)

Lemma similar_refl (e : Element) : similar e e.
Proof. repeat split; auto. Qed.

Lemma similar_trans (e1 e2 e3 : Element) :
  similar e1 e2 -> similar e2 e3 -> similar e1 e3.
Proof.
  intros (Ht & Hp & Hc) (Ht' & Hp' & Hc').
  split; [congruence|]. split; [congruence|].
  intros c Ha Hl. by rewrite Hc', Hc.
Qed.

Lemma extends_refl (e : Element) : extends e e.
Proof. split; [apply similar_refl | auto]. Qed.

Lemma extends_trans (e1 e2 e3 : Element) :
  extends e1 e2 -> extends e2 e3 -> extends e1 e3.
Proof.
  intros [Hs Ha] [Hs' Ha']. split; [by eapply similar_trans | auto].
Qed.

Lemma extends_similar (e e' : Element) : extends e e' -> similar e e'.
Proof. by intros [? _]. Qed.

Lemma extends_set_textContent (t : string) (e : Element) :
  extends e (set_textContent t e).
Proof. repeat split; auto. Qed.

Lemma extends_setAttribute (a v : string) (e : Element) :
  extends e (setAttribute a v e).
Proof. repeat split; auto. Qed.

Lemma extends_classList_add (c : string) (e : Element) :
  c = "active" \/ c = "loaded" -> extends e (classList_add c e).
Proof.
  intros Hc. split; [|rewrite elem_of_classList_add; auto].
  split; [done|]. split; [done|].
  intros d Ha Hl. rewrite elem_of_classList_add.
  split; [|auto]. intros [->|Hd]; [|done]. destruct Hc; congruence.
Qed.

Lemma similar_mark_link (current : option string) (e : Element) :
  similar e (mark_link current e).
Proof.
  unfold mark_link.
  case_bool_decide;
    (split; [done|]; split; [done|]; intros d Ha Hl;
     rewrite ?elem_of_classList_add, elem_of_classList_remove;
     intuition congruence).
Qed.

(** Documents related element by element. *)
Lemma Forall2_refl_doc (R : Element -> Element -> Prop) (doc : Document) :
  (forall e, R e e) -> Forall2 R doc doc.
Proof. intros HR. apply Forall_Forall2_diag, Forall_forall. auto. Qed.

Lemma Forall2_modify (R : Element -> Element -> Prop) (doc doc' : Document)
  (i : nat) (f : Element -> Element) :
  (forall e1 e2 e3, R e1 e2 -> R e2 e3 -> R e1 e3) ->
  (forall e, R e (f e)) ->
  Forall2 R doc doc' -> Forall2 R doc (modify i f doc').
Proof.
  intros Htrans Hf H. apply Forall2_alter_r; [done|].
  intros x y _ _ Hxy. apply Htrans with y; [done|apply Hf].
Qed.

Lemma forEach_keeps {A S : Type} (P : S -> Prop) (f : A -> S -> S) (l : list A)
  (s : S) :
  (forall a s, P s -> P (f a s)) -> P s -> P (forEach l f s).
Proof.
  intros Hf. revert s. induction l as [|a l IH]; intros s Hs; [done|].
  rewrite forEach_cons. apply IH, Hf, Hs.
Qed.

(** The document after an event is related to the document before by
    every preorder on elements that the mutations of the event respect. *)
Lemma handle_related `{Locale} (R : Element -> Element -> Prop) (ev : Event)
  (w : World) :
  (forall e, R e e) ->
  (forall e1 e2 e3, R e1 e2 -> R e2 e3 -> R e1 e3) ->
  respects R ev ->
  Forall2 R (document w) (document (handle ev w)).
Proof.
  intros Hrefl Htrans Hev.
  pose proof (Forall2_refl_doc R (document w) Hrefl) as Hstart.
  destruct ev as [lay|lay|visible|visible|timer|anchor|]; simpl in *.
  - unfold revealOnScroll.
    apply (forEach_keeps (fun d => Forall2 R (document w) d)); [|done].
    intros i d Hd. destruct (Qlt_bool _ _); [|done].
    by apply Forall2_modify.
  - destruct Hev as [Hrem Hadd]. unfold updateActiveNavLink.
    apply (forEach_keeps (fun d => Forall2 R (document w) d)); [|done].
    intros i d Hd.
    assert (Forall2 R (document w) (modify i (classList_remove "active") d))
      by by apply Forall2_modify.
    case_bool_decide; [|done]. by apply Forall2_modify.
  - unfold stats_update, statsObserver_callback.
    apply (forEach_keeps (fun w' => Forall2 R (document w) (document w')));
      [|done].
    intros entry w1 H1. destruct (isIntersecting entry); [|done]. simpl.
    apply (forEach_keeps (fun w' => Forall2 R (document w) (document w')));
      [|done].
    intros stat w2 H2. simpl. by apply Forall2_modify.
  - destruct Hev as [Hsrc Hadd]. unfold images_update, imageObserver_callback.
    apply (forEach_keeps (fun w' => Forall2 R (document w) (document w')));
      [|done].
    intros entry w1 H1. destruct (isIntersecting entry); [|done]. simpl.
    apply Forall2_modify; [done|done|]. by apply Forall2_modify.
  - unfold interval_fires.
    destruct (intervals w !! timer) as [c|]; [|done].
    destruct (counter_callback c) as [[c' shown] stop].
    assert (Forall2 R (document w)
              (modify (cn_element c') (set_textContent (toLocaleString shown))
                      (document w))) by by apply Forall2_modify.
    by destruct stop.
  - done.
  - destruct (querySelector _ _); [|done]. simpl. by apply Forall2_modify.
Qed.

Lemma similar_classList_add (c : string) (e : Element) :
  c = "active" \/ c = "loaded" -> similar e (classList_add c e).
Proof. intros Hc. by apply extends_similar, extends_classList_add. Qed.

Lemma similar_classList_remove (e : Element) :
  similar e (classList_remove "active" e).
Proof.
  split; [done|]. split; [done|]. intros d Ha Hl.
  rewrite elem_of_classList_remove. tauto.
Qed.

(** Every handler but [updateActiveNavLink] only adds to the classes. *)
Lemma handle_extends `{Locale} (ev : Event) (w : World) :
  (forall lay, ev <> NavRuns lay) ->
  Forall2 extends (document w) (document (handle ev w)).
Proof.
  intros Hnav.
  apply handle_related; [apply extends_refl|apply extends_trans|].
  destruct ev as [lay|lay|visible|visible|timer|anchor|]; simpl;
    auto using extends_classList_add, extends_set_textContent,
               extends_setAttribute.
  by destruct (Hnav lay).
Qed.

Lemma handle_similar `{Locale} (ev : Event) (w : World) :
  Forall2 similar (document w) (document (handle ev w)).
Proof.
  apply handle_related; [apply similar_refl|apply similar_trans|].
  destruct ev as [lay|lay|visible|visible|timer|anchor|]; simpl;
    auto using similar_classList_add, similar_classList_remove,
               extends_similar, extends_set_textContent, extends_setAttribute.
Qed.

Lemma similar_parentNode (doc doc' : Document) (i : nat) :
  Forall2 similar doc doc' ->
  doc' !! i ≫= parentNode = doc !! i ≫= parentNode.
Proof.
  intros Hs. apply Forall2_lookup with (i := i) in Hs.
  destruct Hs as [e e' (_ & Hp & _)|]; simpl; congruence.
Qed.

Lemma similar_ancestors (doc doc' : Document) (fuel i : nat) :
  Forall2 similar doc doc' -> ancestors fuel doc' i = ancestors fuel doc i.
Proof.
  intros Hs. revert i. induction fuel as [|fuel IH]; intros i; [done|].
  simpl. rewrite (similar_parentNode doc doc' i Hs).
  destruct (doc !! i ≫= parentNode); [|done]. by rewrite IH.
Qed.

Lemma similar_on_element (doc doc' : Document) (p : Element -> bool) (i : nat) :
  Forall2 similar doc doc' ->
  (forall e e', similar e e' -> p e' = p e) ->
  on_element doc' i p = on_element doc i p.
Proof.
  intros Hs Hp. apply Forall2_lookup with (i := i) in Hs.
  unfold on_element. destruct Hs; simpl; auto.
Qed.

Lemma similar_navLink (doc doc' : Document) (i : nat) :
  Forall2 similar doc doc' ->
  matches doc' (Descendant (Class "nav-links") (Tag "a")) i
  = matches doc (Descendant (Class "nav-links") (Tag "a")) i.
Proof.
  intros Hs. simpl.
  rewrite (similar_ancestors doc doc' _ i Hs), <- (Forall2_length _ _ _ Hs).
  f_equal.
  - apply similar_on_element; [done|]. by intros e e' (-> & _).
  - induction (ancestors _ _ _) as [|a l IH]; [done|]. simpl. f_equal; [|done].
    apply similar_on_element; [done|]. intros e e' (_ & _ & Hc).
    unfold contains. apply bool_decide_ext. by apply Hc.
Qed.

(** One event leaves [active] on an element that is not a link of
    [.nav-links]. *)
Lemma handle_keeps_active `{Locale} (ev : Event) (w : World) (j : nat)
  (e : Element) :
  matches (document w) (Descendant (Class "nav-links") (Tag "a")) j = false ->
  document w !! j = Some e -> "active" ∈ classList e ->
  exists e', document (handle ev w) !! j = Some e' /\ "active" ∈ classList e'.
Proof.
  intros Hnav He Hact.
  assert (Hcase : (exists lay, ev = NavRuns lay) \/ forall lay, ev <> NavRuns lay).
  { destruct ev; try (right; discriminate). left. by eexists. }
  destruct Hcase as [[lay ->]|Hne].
  - exists e. split; [|done]. simpl.
    by rewrite updateActiveNavLink_lookup, Hnav.
  - destruct (Forall2_lookup_l _ _ _ j e (handle_extends ev w Hne) He)
      as (e' & He' & _ & Hkeep).
    exists e'. auto.
Qed.

(** C8, counterexample: link 3 of the sample page has class [reveal] and
    is revealed when the page is set up; after the next scroll, for which
    both debounced handlers run, [updateActiveNavLink] has taken [active]
    away from it. *)
Lemma reveal_permanent_counterexample :
  ~ @stays_active Sample.en_US
      [RevealRuns (Sample.scrolled 100); NavRuns (Sample.scrolled 100)]
      (DOMContentLoaded (Sample.scrolled 0) Sample.page) 3.
Proof.
  intros Hstays.
  destruct (Hstays _ eq_refl) as (e' & He' & Hact).
  - apply (bool_decide_unpack _). vm_compute. exact I.
  - vm_compute in He'. injection He' as <-.
    apply (bool_decide_pack _) in Hact. vm_compute in Hact. exact Hact.
Qed.

(** C8, as amended: [revealOnScroll] never removes [active], and the only
    handler that does, [updateActiveNavLink], touches the links of
    [.nav-links] alone; so an element that is not such a link, once it
    carries [active], carries it after every later sequence of events,
    wherever it is in the viewport. *)
Theorem reveal_stays_active `{Locale} (evs : list Event) (w : World) (j : nat) :
  matches (document w) (Descendant (Class "nav-links") (Tag "a")) j = false ->
  stays_active evs w j.
Proof.
  unfold stays_active, run. revert w.
  induction evs as [|ev evs IH]; intros w Hnav e He Hact.
  - exists e. by rewrite forEach_nil.
  - rewrite forEach_cons.
    destruct (handle_keeps_active ev w j e Hnav He Hact) as (e1 & He1 & Hact1).
    apply (IH (handle ev w)) with e1; [|done|done].
    by rewrite (similar_navLink _ _ j (handle_similar ev w)).
Qed.

Lemma reveal_stays_active_witness :
  @stays_active Sample.en_US
    [RevealRuns (Sample.scrolled 2000); NavRuns (Sample.scrolled 2000);
     RevealRuns (Sample.scrolled (-900))]
    (DOMContentLoaded (Sample.scrolled 0) Sample.page) 5.
Proof.
  apply (@reveal_stays_active Sample.en_US). vm_compute. reflexivity.
Defined.

(** ** Animated counter *)

(** *** A positive target, in exact arithmetic *)

Lemma Qle_bool_false (a b : Q) : Qle_bool a b = false <-> (b < a)%Q.
Proof.
  destruct (Qle_bool a b) eqn:E.
  - apply Qle_bool_iff in E. split; [discriminate|]. intros. lra.
  - split; [intros _|reflexivity].
    destruct (Qlt_le_dec b a) as [|Hle]; [done|].
    apply Qle_bool_iff in Hle. congruence.
Qed.

Section PositiveTarget.
Variable element : nat.
Variable q : Q.
Hypothesis q_pos : (0 < q)%Q.

Let inc : Q := (q / (2000 / 16))%Q.

Lemma inc_pos : (0 < inc)%Q.
Proof.
  unfold inc. apply Qlt_shift_div_l; [reflexivity|].
  by rewrite Qmult_0_l.
Qed.

Lemma inc_125 : (125 * inc == q)%Q.
Proof. unfold inc. field. Qed.

(** The accumulated value stays below the target for the first 124 ticks
    and reaches it with tick 125. *)
Lemma below_target (k : nat) (x : Q) :
  (x == inject_Z (Z.of_nat k) * inc)%Q -> S k < 125 ->
  Num.geb (Num.add (Fin x) (Fin inc)) (Fin q) = false.
Proof.
  intros Hx Hk. simpl. apply Qle_bool_false. rewrite Hx, <- inc_125.
  set (a := inject_Z (Z.of_nat k)).
  assert (Ha : (a + 1 < 125)%Q).
  { unfold a. change 1%Q with (inject_Z 1). change 125%Q with (inject_Z 125).
    rewrite <- inject_Z_plus, <- Zlt_Qlt. lia. }
  assert (Hpos : (0 < (125 - (a + 1)) * inc)%Q).
  { apply Qmult_lt_0_compat; [lra|apply inc_pos]. }
  lra.
Qed.

Lemma reaches_target (x : Q) :
  (x == 124 * inc)%Q ->
  Num.geb (Num.add (Fin x) (Fin inc)) (Fin q) = true.
Proof.
  intros Hx. simpl. apply Qle_bool_iff. rewrite Hx, <- inc_125. lra.
Qed.

Lemma next_accumulated (k : nat) (x : Q) :
  (x == inject_Z (Z.of_nat k) * inc)%Q ->
  (x + inc == inject_Z (Z.of_nat (S k)) * inc)%Q.
Proof.
  intros ->. rewrite Nat2Z.inj_succ. unfold Z.succ.
  rewrite inject_Z_plus. change (inject_Z 1) with 1%Q. ring.
Qed.

End PositiveTarget.

(** *** A target that underflows *)




(** The same run with the target 100 has a last tick: the rounded
    increment [0.8] added 125 times stays just below 100, so tick 126
    displays the target and clears the interval. *)
Lemma animateCounter_hundred_ends `{Double.Locale} :
  let w0 := Double.animateCounter 8 100 (Double.mkWorld Sample.page ∅ 1) in
  let w125 := Nat.iter 125 (Double.interval_fires 1) w0 in
  let w126 := Double.interval_fires 1 w125 in
  is_Some (Double.intervals w125 !! 1)
  /\ text_of 8 (Double.document w125) = Double.toLocaleString 99
  /\ Double.intervals w126 !! 1 = None
  /\ text_of 8 (Double.document w126) = Double.toLocaleString 100.
Proof.
  split; [vm_compute; by eexists|]. split; [by vm_compute|].
  split; by vm_compute.
Qed.

(** *** Intervals in the page *)

Lemma text_of_modify (i : nat) (t : string) (doc : Document) :
  i < length doc -> text_of i (modify i (set_textContent t) doc) = t.
Proof.
  intros Hi. unfold text_of, modify. rewrite list_lookup_alter_eq.
  destruct (lookup_lt_is_Some_2 doc i Hi) as [e ->]. reflexivity.
Qed.

Lemma length_modify (i : nat) (f : Element -> Element) (doc : Document) :
  length (modify i f doc) = length doc.
Proof. apply length_alter. Qed.

(** What a tick does when the callback does not stop the interval, and
    when it does. *)
Lemma interval_fires_goes_on `{Locale} (timer : nat) (w : World)
  (c c' : Counter) (shown : number) :
  intervals w !! timer = Some c ->
  counter_callback c = (c', shown, false) ->
  intervals (interval_fires timer w) !! timer = Some c'
  /\ document (interval_fires timer w)
     = modify (cn_element c) (set_textContent (toLocaleString shown)) (document w).
Proof.
  intros Hc Hcb. unfold interval_fires. rewrite Hc, Hcb. simpl.
  split; [apply lookup_insert_eq|].
  unfold counter_callback in Hcb. by destruct (Num.geb _ _); injection Hcb as <- _.
Qed.

Lemma interval_fires_stops `{Locale} (timer : nat) (w : World)
  (c c' : Counter) (shown : number) :
  intervals w !! timer = Some c ->
  counter_callback c = (c', shown, true) ->
  intervals (interval_fires timer w) !! timer = None
  /\ document (interval_fires timer w)
     = modify (cn_element c) (set_textContent (toLocaleString shown)) (document w).
Proof.
  intros Hc Hcb. unfold interval_fires. rewrite Hc, Hcb. simpl.
  split; [apply lookup_delete_eq|].
  unfold counter_callback in Hcb. by destruct (Num.geb _ _); injection Hcb as <- _.
Qed.

Lemma counter_callback_NaN (element : nat) (current : number) :
  counter_callback (mkCounter element NaN NaN current)
  = (mkCounter element NaN NaN NaN, NaN, false).
Proof. by destruct current. Qed.

(** An interval whose target is [NaN] is never cleared: every tick writes
    the rendering of [NaN] and leaves the interval active. *)
Lemma NaN_interval_goes_on `{Locale} (timer element : nat) (current : number)
  (w : World) (n : nat) :
  intervals w !! timer = Some (mkCounter element NaN NaN current) ->
  element < length (document w) ->
  let w' := Nat.iter (S n) (interval_fires timer) w in
  intervals w' !! timer = Some (mkCounter element NaN NaN NaN)
  /\ text_of element (document w') = toLocaleString NaN
  /\ length (document w') = length (document w).
Proof.
  intros Hc Hel. revert current w Hc Hel.
  induction n as [|n IH]; intros current w Hc Hel.
  - simpl.
    destruct (interval_fires_goes_on timer w _ _ _ Hc
                (counter_callback_NaN element current)) as [Hi Hd].
    rewrite Hi, Hd. simpl.
    by rewrite text_of_modify, length_modify.
  - rewrite Nat.iter_succ_r.
    destruct (interval_fires_goes_on timer w _ _ _ Hc
                (counter_callback_NaN element current)) as [Hi Hd].
    destruct (IH NaN (interval_fires timer w) Hi) as (Hi' & Ht' & Hl').
    { rewrite Hd. simpl. by rewrite length_modify. }
    split; [done|]. split; [done|].
    rewrite Hl', Hd. simpl. by rewrite length_modify.
Qed.

(** C1, at the input where the code fails: statistic 10 of the sample page
    reads [<1s]. When the stats section becomes visible its text is reset
    to [0] and a counter is started whose target is [parseInt("<1s")],
    that is [NaN]; the interval of that counter is never cleared, and from
    the first tick on the element reads [NaN]. *)
Theorem animateCounter_NaN_never_stops :
  let w := @run Sample.en_US [StatsUpdate (fun _ => true)]
             (DOMContentLoaded (Sample.scrolled 0) Sample.page) in
  text_of 10 Sample.page = "<1s"
  /\ parseInt (remove_commas "<1s") = NaN
  /\ text_of 10 (document w) = "0"
  /\ intervals w !! 3 = Some (animateCounter_closure 10 NaN)
  /\ forall n,
       let w' := Nat.iter (S n) (@interval_fires Sample.en_US 3) w in
       is_Some (intervals w' !! 3) /\ text_of 10 (document w') = "NaN".
Proof.
  intros w.
  assert (Hc : intervals w !! 3 = Some (mkCounter 10 NaN NaN (Fin 0)))
    by (vm_compute; reflexivity).
  split; [reflexivity|]. split; [reflexivity|].
  split; [vm_compute; reflexivity|]. split; [exact Hc|].
  intros n w'.
  destruct (@NaN_interval_goes_on Sample.en_US 3 10 (Fin 0) w n Hc)
    as (Hi & Ht & _).
  { vm_compute. lia. }
  split; [by eexists|exact Ht].
Qed.

(** In the exact arithmetic of [Num] a positive target is reached with
    tick 125 and not before. *)
Lemma positive_interval_goes_on `{Locale} (timer element : nat) (q : Q)
  (w : World) (k : nat) :
  (0 < q)%Q -> k < 125 ->
  intervals w !! timer = Some (animateCounter_closure element (Fin q)) ->
  let w' := Nat.iter k (interval_fires timer) w in
  length (document w') = length (document w)
  /\ exists x, (x == inject_Z (Z.of_nat k) * (q / (2000 / 16)))%Q
       /\ intervals w' !! timer
          = Some (mkCounter element (Fin q) (Fin (q / (2000 / 16))) (Fin x)).
Proof.
  intros Hq Hk Hc. induction k as [|k IH]; simpl.
  - split; [done|]. exists 0%Q. split; [simpl; ring|done].
  - destruct IH as (Hlen & x & Hx & Hcx); [lia|].
    set (wk := Nat.iter k (interval_fires timer) w) in *.
    destruct (interval_fires_goes_on timer wk _
                (mkCounter element (Fin q) (Fin (q / (2000 / 16)))
                           (Fin (x + q / (2000 / 16))))
                (Num.floor (Fin (x + q / (2000 / 16)))) Hcx) as [Hi Hd].
    { unfold counter_callback.
      cbn [cn_element cn_target cn_increment cn_current].
      by rewrite (below_target q Hq k x Hx) by lia. }
    split; [rewrite Hd; simpl; by rewrite length_modify|].
    exists (x + q / (2000 / 16))%Q. split; [by apply next_accumulated|done].
Qed.

Lemma animateCounter_intervals (element : nat) (target : number) (w : World) :
  intervals (animateCounter element target w) !! nextTimer w
  = Some (animateCounter_closure element target).
Proof. apply lookup_insert_eq. Qed.

Lemma first_tick_stops (element : nat) (target : number) :
  match target with
  | NaN => False
  | Fin q => (q <= 0)%Q
  | _ => True
  end ->
  exists c', counter_callback (animateCounter_closure element target)
             = (c', target, true).
Proof.
  destruct target as [| |q|]; intros Ht; try done.
  - eexists. reflexivity.
  - unfold counter_callback, animateCounter_closure.
    cbn [cn_element cn_target cn_increment cn_current].
    change (Num.div (Fin 2000) (Fin 16)) with (Fin (2000 / 16)).
    change (Num.div (Fin q) (Fin (2000 / 16))) with (Fin (q / (2000 / 16))).
    cbn [Num.add Num.geb].
    assert (Hge : Qle_bool q (0 + q / (2000 / 16)) = true).
    { apply Qle_bool_iff.
      assert (H125 : (125 * (q / (2000 / 16)) == q)%Q) by field. lra. }
    rewrite Hge. by eexists.
  - eexists. reflexivity.
Qed.

(** ** The stats observer *)

Lemma unobserve_not_elem (target : nat) (targets : list nat) :
  target ∉ unobserve target targets.
Proof. unfold unobserve. rewrite list_elem_of_filter. tauto. Qed.

Lemma stats_counters_statsObserved (stats : list nat) (w : World) :
  statsObserved
    (forEach stats (fun stat w =>
       let target := parseInt (remove_commas (text_of stat (document w))) in
       let w := with_document (modify stat (set_textContent "0")) w in
       animateCounter stat target w) w)
  = statsObserved w.
Proof.
  apply (forEach_keeps (fun w' => statsObserved w' = statsObserved w)); done.
Qed.

(** With nothing to watch the observer has nothing to report. *)
Lemma stats_update_idle (visible : nat -> bool) (w : World) :
  statsObserved w = [] -> stats_update visible w = w.
Proof. unfold stats_update. by intros ->. Qed.

Lemma stats_update_hidden (visible : nat -> bool) (w : World) (section : nat) :
  statsObserved w = [section] -> visible section = false ->
  stats_update visible w = w.
Proof.
  unfold stats_update, entries_of. intros -> Hv. cbn [map].
  unfold statsObserver_callback. rewrite forEach_cons, forEach_nil.
  cbn [isIntersecting entry_target]. by rewrite Hv.
Qed.

Lemma stats_counters_nextTimer (stats : list nat) (w : World) :
  nextTimer
    (forEach stats (fun stat w =>
       let target := parseInt (remove_commas (text_of stat (document w))) in
       let w := with_document (modify stat (set_textContent "0")) w in
       animateCounter stat target w) w)
  = nextTimer w + length stats.
Proof.
  revert w. induction stats as [|stat stats IH]; intros w.
  - rewrite forEach_nil. simpl. lia.
  - rewrite forEach_cons, IH. simpl. lia.
Qed.

Lemma stats_update_visible (visible : nat -> bool) (w : World) (section : nat) :
  statsObserved w = [section] -> visible section = true ->
  statsObserved (stats_update visible w) = []
  /\ nextTimer (stats_update visible w)
     = nextTimer w
       + length (querySelectorAll_from section (Class "stat-number") (document w)).
Proof.
  unfold stats_update, entries_of. intros Hobs Hv. rewrite Hobs. cbn [map].
  unfold statsObserver_callback. rewrite forEach_cons, forEach_nil.
  cbn [isIntersecting entry_target]. rewrite Hv.
  cbn [statsObserved nextTimer with_statsObserved].
  rewrite stats_counters_statsObserved, Hobs, stats_counters_nextTimer.
  unfold unobserve. rewrite filter_cons_False by tauto. done.
Qed.

(** Once the stats observer watches nothing, no event starts a counter:
    no timer id is handed out and no interval appears. *)
Lemma handle_idle `{Locale} (ev : Event) (w : World) :
  statsObserved w = [] ->
  statsObserved (handle ev w) = []
  /\ nextTimer (handle ev w) = nextTimer w
  /\ dom (intervals (handle ev w)) ⊆ dom (intervals w).
Proof.
  intros Hobs.
  destruct ev as [lay|lay|visible|visible|timer|anchor|]; simpl;
    try done.
  - by rewrite stats_update_idle.
  - unfold images_update, imageObserver_callback.
    apply (forEach_keeps (fun w' => statsObserved w' = []
             /\ nextTimer w' = nextTimer w
             /\ dom (intervals w') ⊆ dom (intervals w))); [|done].
    intros entry w1 H1. by destruct (isIntersecting entry).
  - unfold interval_fires.
    destruct (intervals w !! timer) as [c|] eqn:Hc; [|done].
    destruct (counter_callback c) as [[c' shown] [|]]; simpl.
    + split; [done|]. split; [done|]. apply subseteq_dom, delete_subseteq.
    + split; [done|]. split; [done|]. intros x.
      rewrite dom_insert_L, elem_of_union, elem_of_singleton.
      intros [->|Hx]; [by apply elem_of_dom_2 with c|done].
  - by destruct (querySelector _ _).
Qed.

Lemma run_idle `{Locale} (evs : list Event) (w : World) :
  statsObserved w = [] ->
  statsObserved (run evs w) = []
  /\ nextTimer (run evs w) = nextTimer w
  /\ dom (intervals (run evs w)) ⊆ dom (intervals w).
Proof.
  unfold run. revert w. induction evs as [|ev evs IH]; intros w Hobs; [done|].
  rewrite forEach_cons.
  destruct (handle_idle ev w Hobs) as (Ho & Hn & Hd).
  destruct (IH (handle ev w) Ho) as (Ho' & Hn' & Hd').
  split; [done|]. split; [congruence|].
  by transitivity (dom (intervals (handle ev w))).
Qed.

(** C3: the counters are started at most once. While the watched section
    is reported as not intersecting, nothing happens. The first report in
    which it intersects starts one counter for each [.stat-number] of the
    section and leaves the observer without a target; whatever happens
    afterwards, the observer stays without a target, no counter is started
    (no timer id is handed out and no interval appears), and a further
    report changes nothing at all. *)
Theorem stats_triggered_once `{Locale} (w : World) (section : nat) :
  statsObserved w = [section] ->
  (forall visible, visible section = false ->
     handle (StatsUpdate visible) w = w)
  /\ (forall visible evs, visible section = true ->
        let w1 := handle (StatsUpdate visible) w in
        let w2 := run evs w1 in
        statsObserved w1 = []
        /\ nextTimer w1
           = nextTimer w
             + length (querySelectorAll_from section (Class "stat-number")
                                             (document w))
        /\ statsObserved w2 = []
        /\ nextTimer w2 = nextTimer w1
        /\ dom (intervals w2) ⊆ dom (intervals w1)
        /\ forall visible', handle (StatsUpdate visible') w2 = w2).
Proof.
  intros Hobs. split.
  - intros visible Hv. by apply stats_update_hidden with section.
  - intros visible evs Hv w1 w2.
    destruct (stats_update_visible visible w section Hobs Hv) as [H1 Hstart].
    destruct (run_idle evs w1 H1) as (H2 & Hn & Hd).
    split; [done|]. split; [done|]. split; [done|]. split; [done|].
    split; [done|].
    intros visible'. by apply stats_update_idle.
Qed.

Lemma stats_triggered_once_witness :
  let w := DOMContentLoaded (Sample.scrolled 0) Sample.page in
  (forall visible, visible 7 = false ->
     @handle Sample.en_US (StatsUpdate visible) w = w)
  /\ (forall visible evs, visible 7 = true ->
        let w1 := @handle Sample.en_US (StatsUpdate visible) w in
        let w2 := @run Sample.en_US evs w1 in
        statsObserved w1 = []
        /\ nextTimer w1
           = nextTimer w
             + length (querySelectorAll_from 7 (Class "stat-number")
                                             (document w))
        /\ statsObserved w2 = []
        /\ nextTimer w2 = nextTimer w1
        /\ dom (intervals w2) ⊆ dom (intervals w1)
        /\ forall visible', @handle Sample.en_US (StatsUpdate visible') w2 = w2).
Proof.
  apply (@stats_triggered_once Sample.en_US
           (DOMContentLoaded (Sample.scrolled 0) Sample.page) 7).
  reflexivity.
Defined.

(** ** Lazy loading *)

Lemma imageObserver_callback_cons (entry : Entry) (entries : list Entry)
  (w : World) :
  imageObserver_callback (entry :: entries) w
  = imageObserver_callback entries
      (if isIntersecting entry
       then with_imagesObserved (unobserve (entry_target entry))
              (with_document (modify (entry_target entry) load_image) w)
       else w).
Proof.
  unfold imageObserver_callback. rewrite forEach_cons.
  destruct (isIntersecting entry); [|done].
  f_equal. unfold with_imagesObserved, with_document.
  cbn [document intervals nextTimer statsObserved imagesObserved].
  f_equal. unfold modify. by rewrite list_alter_alter_eq.
Qed.

Lemma filter_all {A : Type} (P : A -> Prop) `{forall x, Decision (P x)}
  (l : list A) :
  (forall x, x ∈ l -> P x) -> filter P l = l.
Proof.
  induction l as [|x l IH]; intros Hall; [done|].
  rewrite filter_cons_True by (apply Hall; left).
  f_equal. apply IH. intros y Hy. apply Hall. by right.
Qed.

(** One notification of [imageObserver] about the targets [l]. *)
Lemma imageObserver_callback_spec (visible : nat -> bool) (l : list nat)
  (w : World) :
  NoDup l ->
  let w' := imageObserver_callback (entries_of l visible) w in
  (forall i, document w' !! i
             = if bool_decide (i ∈ l /\ visible i = true)
               then load_image <$> document w !! i
               else document w !! i)
  /\ imagesObserved w'
     = filter (fun t => ~ (t ∈ l /\ visible t = true)) (imagesObserved w).
Proof.
  intros Hnd. revert w. induction Hnd as [|t l Ht Hnd IH]; intros w; cbv zeta.
  - unfold entries_of, imageObserver_callback. cbn [map]. rewrite forEach_nil.
    split.
    + intros i. rewrite bool_decide_eq_false_2; [done|].
      intros [[]%elem_of_nil _].
    + symmetry. apply filter_all.
      intros x _ [[]%elem_of_nil _].
  - unfold entries_of. cbn [map]. rewrite imageObserver_callback_cons.
    fold (entries_of l visible). cbn [isIntersecting entry_target].
    destruct (IH (if visible t
                  then with_imagesObserved (unobserve t)
                         (with_document (modify t load_image) w)
                  else w)) as [Hdoc Hobs].
    split.
    + intros i. rewrite Hdoc.
      destruct (decide (i = t)) as [->|Hne].
      * rewrite (bool_decide_eq_false_2 (t ∈ l /\ _)) by tauto.
        destruct (visible t) eqn:Hv.
        -- rewrite bool_decide_eq_true_2 by (split; [left|done]).
           simpl. apply list_lookup_alter_eq.
        -- rewrite bool_decide_eq_false_2; [done|]. intros [_ H]. congruence.
      * assert (Hdoc1 : document (if visible t
                  then with_imagesObserved (unobserve t)
                         (with_document (modify t load_image) w)
                  else w) !! i = document w !! i).
        { destruct (visible t); [|done]. simpl.
          by apply list_lookup_alter_ne. }
        rewrite Hdoc1. apply (f_equal (fun b : bool => if b then _ else _)).
        apply bool_decide_ext. rewrite elem_of_cons. intuition congruence.
    + rewrite Hobs. destruct (visible t) eqn:Hv.
      * cbn [imagesObserved with_imagesObserved with_document].
        unfold unobserve. rewrite list_filter_filter.
        apply list_filter_iff. intros x. rewrite elem_of_cons. split.
        -- intros [H1 H2] [[Heq|Hx] Hvx]; [by apply H2|apply H1; by split].
        -- intros Hx. split.
           ++ intros [Hl Hvx]. apply Hx. split; [by right|done].
           ++ intros Heq. apply Hx. split; [by left|congruence].
      * apply list_filter_iff. intros x. rewrite elem_of_cons. split.
        -- intros Hx [[Heq|Hl] Hvx]; [congruence|apply Hx; by split].
        -- intros Hx [Hl Hvx]. apply Hx. split; [by right|done].
Qed.

Lemma handle_imagesObserved `{Locale} (ev : Event) (w : World) :
  (forall visible, ev <> ImagesUpdate visible) ->
  imagesObserved (handle ev w) = imagesObserved w.
Proof.
  intros Hne. destruct ev as [lay|lay|visible|visible|timer|anchor|]; simpl;
    try done.
  - unfold stats_update, statsObserver_callback.
    apply (forEach_keeps (fun w' => imagesObserved w' = imagesObserved w));
      [|done].
    intros entry w1 H1. destruct (isIntersecting entry); [|done]. simpl.
    apply (forEach_keeps (fun w' => imagesObserved w' = imagesObserved w));
      done.
  - by destruct (Hne visible).
  - unfold interval_fires. destruct (intervals w !! timer) as [c|]; [|done].
    by destruct (counter_callback c) as [[c' shown] [|]].
  - by destruct (querySelector _ _).
Qed.

Lemma handle_same_attributes `{Locale} (ev : Event) (w : World) :
  (forall visible, ev <> ImagesUpdate visible) ->
  Forall2 same_attributes (document w) (document (handle ev w)).
Proof.
  intros Hne. apply handle_related; [done|unfold same_attributes; congruence|].
  destruct ev as [lay|lay|visible|visible|timer|anchor|]; simpl; try done.
  by destruct (Hne visible).
Qed.

(** An event that is not a notification in which a watched image
    intersects leaves the attributes of the image alone and does not change
    whether it is watched. *)
Lemma handle_image_untouched `{Locale} (ev : Event) (w : World) (img : nat)
  (e : Element) :
  NoDup (imagesObserved w) ->
  document w !! img = Some e ->
  img ∉ imagesObserved w \/ reports ev img = false ->
  NoDup (imagesObserved (handle ev w))
  /\ (img ∈ imagesObserved (handle ev w) <-> img ∈ imagesObserved w)
  /\ exists e', document (handle ev w) !! img = Some e'
       /\ attributes e' = attributes e.
Proof.
  intros Hnd He Hq.
  assert (Hcase : (exists visible, ev = ImagesUpdate visible)
                  \/ forall visible, ev <> ImagesUpdate visible).
  { destruct ev; try (right; discriminate). left. by eexists. }
  destruct Hcase as [[visible ->]|Hne].
  - simpl in *. unfold images_update.
    destruct (imageObserver_callback_spec visible (imagesObserved w) w Hnd)
      as [Hdoc Hobs].
    rewrite Hobs. split; [by apply NoDup_filter|].
    split.
    { rewrite list_elem_of_filter. split; [tauto|]. intros Hin.
      split; [|done]. intros [_ Hv].
      destruct Hq as [Hq|Hq]; [done|congruence]. }
    exists e. split; [|done].
    rewrite Hdoc, bool_decide_eq_false_2, He; [done|].
    intros [? ?]. destruct Hq; [done|congruence].
  - rewrite handle_imagesObserved by done. split; [done|]. split; [done|].
    destruct (Forall2_lookup_l _ _ _ img e (handle_same_attributes ev w Hne) He)
      as (e' & He' & Hattr).
    by exists e'.
Qed.

Lemma run_image_untouched `{Locale} (evs : list Event) (w : World) (img : nat)
  (e : Element) :
  NoDup (imagesObserved w) ->
  document w !! img = Some e ->
  img ∉ imagesObserved w \/ Forall (fun ev => reports ev img = false) evs ->
  NoDup (imagesObserved (run evs w))
  /\ (img ∈ imagesObserved (run evs w) <-> img ∈ imagesObserved w)
  /\ exists e', document (run evs w) !! img = Some e'
       /\ attributes e' = attributes e.
Proof.
  unfold run. revert w e. induction evs as [|ev evs IH]; intros w e Hnd He Hq.
  - rewrite forEach_nil. split; [done|]. split; [done|]. by exists e.
  - rewrite forEach_cons.
    destruct (handle_image_untouched ev w img e Hnd He) as (Hnd1 & Hin1 & e1 & He1 & Ha1).
    { destruct Hq as [Hq|Hq]; [by left|right]. by inversion Hq. }
    destruct (IH (handle ev w) e1 Hnd1 He1) as (Hnd2 & Hin2 & e2 & He2 & Ha2).
    { destruct Hq as [Hq|Hq]; [left; by rewrite Hin1|right]. by inversion Hq. }
    split; [done|]. split; [by rewrite Hin2|].
    exists e2. split; [done|congruence].
Qed.

Lemma initLazyLoading_observes (l : list nat) (w : World) :
  NoDup (imagesObserved w ++ l)%list ->
  let w' := forEach l (fun img w => with_imagesObserved (observe img) w) w in
  imagesObserved w' = (imagesObserved w ++ l)%list /\ document w' = document w.
Proof.
  revert w. induction l as [|img l IH]; intros w Hnd.
  - rewrite forEach_nil. by rewrite app_nil_r.
  - rewrite forEach_cons.
    assert (Himg : img ∉ imagesObserved w).
    { apply NoDup_app in Hnd as (_ & Hdisj & _). intros Hin.
      apply (Hdisj img Hin). left. }
    destruct (IH (with_imagesObserved (observe img) w)) as [Hobs Hdoc].
    + simpl. unfold observe. rewrite bool_decide_eq_false_2 by done.
      by rewrite <- app_assoc.
    + simpl in *. rewrite Hobs, Hdoc. unfold observe.
      rewrite bool_decide_eq_false_2 by done. by rewrite <- app_assoc.
Qed.

Lemma revealOnScroll_attributes (lay : Layout) (doc : Document) (i : nat)
  (e : Element) :
  doc !! i = Some e ->
  exists e', revealOnScroll lay doc !! i = Some e'
    /\ tagName e' = tagName e /\ attributes e' = attributes e.
Proof.
  intros He. rewrite revealOnScroll_lookup, He.
  destruct (matches doc _ i); simpl; [|by exists e].
  exists (reveal_one lay i e). split; [done|].
  unfold reveal_one. by destruct (Qlt_bool _ _).
Qed.

(** When the page is set up the image observer watches the images that
    carry a [data-src] attribute, each once. *)
Lemma DOMContentLoaded_images (lay : Layout) (doc : Document) (img : nat)
  (e : Element) :
  img ∈ querySelectorAll (TagAttr "img" "data-src") doc ->
  doc !! img = Some e ->
  let w := DOMContentLoaded lay doc in
  NoDup (imagesObserved w)
  /\ img ∈ imagesObserved w
  /\ exists e', document w !! img = Some e' /\ attributes e' = attributes e.
Proof.
  intros Himg He w. unfold w, DOMContentLoaded, initLazyLoading.
  set (w1 := initStatsObserver _).
  assert (Hobs1 : imagesObserved w1 = []).
  { unfold w1, initStatsObserver. by destruct (querySelector _ _). }
  assert (Hdoc1 : document w1 = revealOnScroll lay doc).
  { unfold w1, initStatsObserver. by destruct (querySelector _ _). }
  destruct (initLazyLoading_observes
              (querySelectorAll (TagAttr "img" "data-src") (document w1)) w1)
    as [Hobs Hdoc].
  { rewrite Hobs1. apply NoDup_querySelectorAll. }
  rewrite Hobs, Hdoc, Hobs1, Hdoc1. simpl.
  destruct (revealOnScroll_attributes lay doc img e He) as (e' & He' & Ht & Ha).
  split; [apply NoDup_querySelectorAll|]. split; [|by exists e'].
  apply elem_of_querySelectorAll. apply elem_of_querySelectorAll in Himg.
  simpl in *. unfold on_element in *. rewrite He'. rewrite He in Himg.
  simpl in *. unfold hasAttribute in *. by rewrite Ht, Ha.
Qed.

(** C6: an image that carries [data-src] keeps its [src] and stays watched
    as long as no notification reports it as intersecting. With the first
    notification that does, its [src] becomes the value of [data-src], it
    gets the class [loaded] and it is no longer watched; it is never
    watched again, so that no later notification touches it, and its [src]
    stays what it has become. *)
Theorem lazy_image_loads_once `{Locale} (lay : Layout) (doc : Document)
  (img : nat) (e : Element) (source : string) (before : list Event) :
  img ∈ querySelectorAll (TagAttr "img" "data-src") doc ->
  doc !! img = Some e ->
  getAttribute "data-src" e = Some source ->
  Forall (fun ev => reports ev img = false) before ->
  let w0 := run before (DOMContentLoaded lay doc) in
  (img ∈ imagesObserved w0
   /\ exists e0, document w0 !! img = Some e0
        /\ getAttribute "src" e0 = getAttribute "src" e)
  /\ forall visible after, visible img = true ->
       let w1 := handle (ImagesUpdate visible) w0 in
       let w2 := run after w1 in
       (exists e1, document w1 !! img = Some e1
          /\ getAttribute "src" e1 = Some source
          /\ "loaded" ∈ classList e1)
       /\ (img ∉ imagesObserved w1)
       /\ (img ∉ imagesObserved w2)
       /\ exists e2, document w2 !! img = Some e2
            /\ getAttribute "src" e2 = Some source.
Proof.
  intros Himg He Hsrc Hbefore w0.
  destruct (DOMContentLoaded_images lay doc img e Himg He)
    as (Hnd & Hin & e' & He' & Ha').
  destruct (run_image_untouched before _ img e' Hnd He' (or_intror Hbefore))
    as (Hnd0 & Hin0 & e0 & He0 & Ha0).
  fold w0 in Hnd0, Hin0, He0.
  split.
  { split; [by apply Hin0|]. exists e0. split; [done|].
    unfold getAttribute. congruence. }
  intros visible after Hv w1 w2.
  destruct (imageObserver_callback_spec visible (imagesObserved w0) w0 Hnd0)
    as [Hdoc1 Hobs1].
  fold (images_update visible w0) in Hdoc1, Hobs1.
  change (images_update visible w0) with w1 in Hdoc1, Hobs1.
  assert (He1 : document w1 !! img = Some (load_image e0)).
  { rewrite Hdoc1, bool_decide_eq_true_2, He0; [done|].
    split; [by apply Hin0|done]. }
  assert (Hout1 : img ∉ imagesObserved w1).
  { rewrite Hobs1, list_elem_of_filter. intros [Hn Hi]. apply Hn. by split. }
  assert (Hnd1 : NoDup (imagesObserved w1)).
  { rewrite Hobs1. by apply NoDup_filter. }
  assert (Hsrc1 : getAttribute "src" (load_image e0) = Some source).
  { unfold load_image, getAttribute, dataset_src, getAttribute. simpl.
    rewrite lookup_insert_eq, Ha0, Ha'.
    unfold getAttribute in Hsrc. by rewrite Hsrc. }
  destruct (run_image_untouched after w1 img _ Hnd1 He1 (or_introl Hout1))
    as (_ & Hin2 & e2 & He2 & Ha2).
  fold w2 in Hin2, He2.
  split.
  { exists (load_image e0). split; [done|]. split; [done|].
    unfold load_image. rewrite elem_of_classList_add. by left. }
  split; [done|]. split; [by rewrite Hin2|].
  exists e2. split; [done|].
  unfold getAttribute in *. by rewrite Ha2.
Qed.

Lemma lazy_image_loads_once_witness :
  let w0 := @run Sample.en_US [RevealRuns (Sample.scrolled 100);
                               ImagesUpdate (fun _ => false)]
              (DOMContentLoaded (Sample.scrolled 0) Sample.page) in
  (6 ∈ imagesObserved w0
   /\ exists e0, document w0 !! 6 = Some e0
        /\ getAttribute "src" e0 = Some "placeholder.png")
  /\ forall visible after, visible 6 = true ->
       let w1 := @handle Sample.en_US (ImagesUpdate visible) w0 in
       let w2 := @run Sample.en_US after w1 in
       (exists e1, document w1 !! 6 = Some e1
          /\ getAttribute "src" e1 = Some "drone.png"
          /\ "loaded" ∈ classList e1)
       /\ (6 ∉ imagesObserved w1)
       /\ (6 ∉ imagesObserved w2)
       /\ exists e2, document w2 !! 6 = Some e2
            /\ getAttribute "src" e2 = Some "drone.png".
Proof.
  apply (@lazy_image_loads_once Sample.en_US (Sample.scrolled 0) Sample.page 6
           (Sample.element "img" (Some 5)
              [("src", "placeholder.png"); ("data-src", "drone.png")] [] "")
           "drone.png"
           [RevealRuns (Sample.scrolled 100); ImagesUpdate (fun _ => false)]).
  - apply (bool_decide_unpack _). vm_compute. exact I.
  - reflexivity.
  - vm_compute. reflexivity.
  - repeat constructor.
Defined.

(** ** Smooth scrolling *)

(** X3: a click on an anchor that had an [href] beginning with [#] when the
    listeners were bound: the default action is prevented; when
    [querySelector] finds an element it is scrolled into view smoothly,
    aligned to its start; when it finds none nothing else happens; when it
    rejects the [href] as a selector nothing is scrolled and the listener
    ends with the exception. *)
Lemma anchor_click_outcome `{SelectorEngine} (doc : Document) (anchor : nat)
  (e : Element) (href : string) :
  doc !! anchor = Some e ->
  tagName e = "a" ->
  getAttribute "href" e = Some href ->
  String.prefix "#" href = true ->
  let outcome := click (initSmoothScrolling doc) anchor doc in
  defaultPrevented outcome = true
  /\ match querySelector_string href doc with
     | Found target =>
         scrolledIntoView outcome = Some (mkScrollRequest target smooth start)
         /\ uncaught outcome = false
     | Null => scrolledIntoView outcome = None /\ uncaught outcome = false
     | SyntaxError => scrolledIntoView outcome = None /\ uncaught outcome = true
     end.
Proof.
  intros He Htag Hhref Hprefix outcome.
  assert (Hin : anchor ∈ initSmoothScrolling doc).
  { apply elem_of_querySelectorAll. simpl. unfold on_element. rewrite He.
    simpl. rewrite Htag, Hhref. simpl. exact Hprefix. }
  unfold outcome, click. rewrite bool_decide_eq_true_2 by done.
  unfold anchor_onclick. rewrite He. simpl. rewrite Hhref. simpl.
  by destruct (querySelector_string href doc).
Qed.

(** C7, at the input where the code fails: link 4 of the sample page has
    the [href] ["#"], which is not a selector. A click on it prevents the
    default action and then ends with the [SyntaxError] that
    [querySelector] throws; a click on link 3, whose [href] is [#stats],
    scrolls to section 7. *)
Theorem anchor_click_bare_hash_throws :
  Sample.page !! 4 ≫= getAttribute "href" = Some "#"
  /\ @click Sample.simple_selectors (initSmoothScrolling Sample.page) 4
            Sample.page
     = mkClickOutcome true None true
  /\ @click Sample.simple_selectors (initSmoothScrolling Sample.page) 3
            Sample.page
     = mkClickOutcome true (Some (mkScrollRequest 7 smooth start)) false.
Proof. split; [|split]; vm_compute; reflexivity. Qed.

(** ** Debounce *)
Import Debounce.

Lemma to_long_small (z : Z) : (- 2 ^ 31 <= z < 2 ^ 31)%Z -> to_long z = z.
Proof. intros Hz. unfold to_long. rewrite Z.mod_small; lia. Qed.

Lemma delay_of_small (wait : Z) :
  (0 <= wait < 2 ^ 31)%Z -> delay_of wait = wait.
Proof. intros Hw. unfold delay_of. rewrite to_long_small; lia. Qed.

Lemma delay_of_nonneg (wait : Z) : (0 <= delay_of wait)%Z.
Proof. unfold delay_of. lia. Qed.

Section DebounceProperties.
Context {Args : Type}.
Variable wait : Z.

Let d : Z := delay_of wait.

Lemma advance_idle (T : Z) (st : State Args) :
  pending st = [] ->
  advance T st
  = mkState (Z.max (now st) T) [] (next_id st) (timeout st) (executed st).
Proof. intros Hp. unfold advance. rewrite Hp. simpl. by rewrite Hp. Qed.

(** A call replaces the one timeout that may be pending by its own. *)
Lemma executedFunction_arms (a : Args) (st : State Args) :
  one_timeout st ->
  armed d (executedFunction wait a st) (now st) a (executed st).
Proof.
  intros Hone. exists (next_id st).
  unfold executedFunction, clearTimeout, setTimeout. simpl.
  destruct Hone as [->|(id & due & b & -> & ->)]; [done|].
  by rewrite (filter_cons_False (fun t0 => Some (tm_id t0) <> Some id))
    by (simpl; tauto).
Qed.

Lemma armed_one_timeout (t : Z) (a : Args) (log : list (Z * Args))
  (st : State Args) :
  armed d st t a log -> one_timeout st.
Proof. intros (id & Hp & Hto & _). right. by exists id, (t + d)%Z, a. Qed.

Lemma call_at_idle (t : Z) (a : Args) (st : State Args) :
  pending st = [] -> (now st <= t)%Z ->
  armed d (call_at wait (t, a) st) t a (executed st).
Proof.
  intros Hp Hnow. unfold call_at. cbn [fst snd].
  rewrite (advance_idle t st Hp), Z.max_r by lia.
  apply (executedFunction_arms a
           (mkState t [] (next_id st) (timeout st) (executed st))).
  by left.
Qed.

Lemma advance_armed_before (T t : Z) (a : Args) (log : list (Z * Args))
  (st : State Args) :
  armed d st t a log -> (T < t + d)%Z ->
  advance T st
  = mkState (Z.max t T) (pending st) (next_id st) (timeout st) log.
Proof.
  intros (id & Hp & Hto & Hnow & Hlog) HT. unfold advance. rewrite Hp. simpl.
  rewrite Hp. simpl.
  destruct (Z.leb_spec (t + d) T) as [|_]; [lia|].
  by rewrite Hp, Hnow, Hlog.
Qed.

Lemma advance_armed_fires (T t : Z) (a : Args) (log : list (Z * Args))
  (st : State Args) :
  armed d st t a log -> (t + d <= T)%Z ->
  advance T st
  = mkState T [] (next_id st) (timeout st) (log ++ [((t + d)%Z, a)])%list.
Proof.
  intros (id & Hp & Hto & Hnow & Hlog) HT. unfold advance. rewrite Hp. simpl.
  rewrite Hp. simpl.
  destruct (Z.leb_spec (t + d) T) as [_|]; [|lia].
  unfold later, clearTimeout. simpl.
  rewrite (filter_cons_False (fun t' => tm_id t' <> id)) by (simpl; tauto).
  rewrite filter_nil, Hnow, Hlog.
  pose proof (delay_of_nonneg wait) as Hd. fold d in Hd.
  rewrite (Z.max_r t) by lia. rewrite Z.max_r by lia. done.
Qed.

Lemma call_at_armed (p t : Z) (b a : Args) (log : list (Z * Args))
  (st : State Args) :
  armed d st p b log -> (p <= t)%Z -> (t < p + d)%Z ->
  armed d (call_at wait (t, a) st) t a log.
Proof.
  intros Harmed Hpt Htw. unfold call_at. cbn [fst snd].
  rewrite (advance_armed_before t p b log st Harmed Htw).
  destruct Harmed as (id & Hp & Hto & Hnow & Hlog).
  rewrite Z.max_r by lia.
  apply (executedFunction_arms a
           (mkState t (pending st) (next_id st) (timeout st) log)).
  right. by exists id, (p + d)%Z, b.
Qed.

Lemma calls_at_armed (calls : list (Z * Args)) (p : Z) (b : Args)
  (log : list (Z * Args)) (st : State Args) :
  armed d st p b log ->
  burst d (Some p) calls = true ->
  exists t a, last ((p, b) :: calls) = Some (t, a)
    /\ armed d (calls_at wait calls st) t a log.
Proof.
  revert p b st. induction calls as [|[t a] calls IH]; intros p b st Harmed Hb.
  - exists p, b. done.
  - simpl in Hb. apply andb_true_iff in Hb as [Hgap Hb].
    apply andb_true_iff in Hgap as [Hle Hlt].
    apply Z.leb_le in Hle. apply Z.ltb_lt in Hlt.
    unfold calls_at. rewrite forEach_cons.
    destruct (IH t a (call_at wait (t, a) st)) as (t' & a' & Hlast & Harmed');
      [by apply call_at_armed with p b|done|].
    exists t', a'. split; [|done].
    by rewrite last_cons_cons.
Qed.

End DebounceProperties.

(** C4, as it is stated, fails for a wait of [2^31] milliseconds or more,
    which the host does not take as it is: with [wait = 2^31] the delay
    wraps to a negative number and counts as zero, so each timeout is due
    at once. Of two calls one millisecond apart, a burst for that [wait],
    each is followed by a run of [func] at the time of the call, where the
    claim has one run, [wait] milliseconds after the second call. *)
Lemma debounce_long_wait_counterexample :
  let wait := (2 ^ 31)%Z in
  let st := mkState 0 [] 1 None [] in
  let st' := calls_at wait [(0%Z, "a"); (1%Z, "b")] st in
  burst wait None [(0%Z, "a"); (1%Z, "b")] = true
  /\ executed (advance 1 st') = [(0%Z, "a"); (1%Z, "b")]
  /\ ~ ((forall T, (T < 1 + wait)%Z -> executed (advance T st') = executed st)
        /\ (forall T, (1 + wait <= T)%Z ->
              executed (advance T st')
              = (executed st ++ [((1 + wait)%Z, "b")])%list)).
Proof.
  split; [reflexivity|]. split; [reflexivity|].
  intros [Hbefore _].
  assert (Hrun := Hbefore 1%Z eq_refl). discriminate Hrun.
Qed.

(** C4, amended: [wait] is a delay the host takes as it is, from 0 up to
    [2^31 - 1] milliseconds. A burst of calls to the debounced function,
    each less than [wait] after the one before, made while no earlier
    timeout is pending: until [wait] milliseconds have passed since the
    last call of the burst [func] has not been called; from then on it has
    been called exactly once, at that moment, with the arguments of the
    last call. *)
Theorem debounce_burst_runs_once {Args : Type} (wait : Z) (st : State Args)
  (calls : list (Z * Args)) (t : Z) (a : Args) :
  (0 <= wait < 2 ^ 31)%Z ->
  pending st = [] ->
  burst wait None (calls ++ [(t, a)])%list = true ->
  Forall (fun call => (now st <= fst call)%Z) (calls ++ [(t, a)])%list ->
  let st' := calls_at wait (calls ++ [(t, a)])%list st in
  (forall T, (T < t + wait)%Z -> executed (advance T st') = executed st)
  /\ (forall T, (t + wait <= T)%Z ->
        executed (advance T st') = (executed st ++ [((t + wait)%Z, a)])%list).
Proof.
  intros Hwait Hidle Hburst Hfuture st'.
  pose proof (delay_of_small wait Hwait) as Hd.
  assert (Harmed : armed (delay_of wait) st' t a (executed st)).
  { unfold st'. destruct calls as [|[t1 a1] calls].
    - cbn [app]. unfold calls_at. rewrite forEach_cons, forEach_nil.
      apply call_at_idle; [done|]. by inversion Hfuture.
    - cbn [app burst] in Hburst. unfold calls_at. cbn [app].
      rewrite forEach_cons.
      destruct (calls_at_armed wait (calls ++ [(t, a)])%list t1 a1
                  (executed st) (call_at wait (t1, a1) st))
        as (t' & a' & Hlast & Harmed); [|by rewrite Hd|].
      + apply call_at_idle; [done|]. by inversion Hfuture.
      + rewrite app_comm_cons, last_snoc in Hlast.
        by injection Hlast as <- <-. }
  split.
  - intros T HT.
    rewrite (advance_armed_before wait T t a _ st' Harmed) by (rewrite Hd; lia).
    done.
  - intros T HT.
    rewrite (advance_armed_fires wait T t a _ st' Harmed) by (rewrite Hd; lia).
    by rewrite Hd.
Qed.

Lemma debounce_burst_runs_once_witness :
  let st := mkState 0 [] 1 None [] in
  let st' := calls_at 10 [(0%Z, "a"); (4%Z, "b"); (9%Z, "c")] st in
  (forall T, (T < 9 + 10)%Z -> executed (advance T st') = [])
  /\ (forall T, (9 + 10 <= T)%Z ->
        executed (advance T st') = [((9 + 10)%Z, "c")]).
Proof.
  apply (debounce_burst_runs_once 10 (mkState 0 [] 1 None [])
           [(0%Z, "a"); (4%Z, "b")] 9 "c").
  - lia.
  - reflexivity.
  - reflexivity.
  - repeat constructor; simpl; lia.
Defined.

(** * Further properties of the script *)

(** ** Counters *)

(** X2: a counter started with the target [NaN] on an element of the page
    is never cleared: after any positive number of ticks its interval is
    still active and the element shows the rendering of [NaN]. *)
Theorem animateCounter_NaN_goes_on `{Locale} (element : nat) (w : World)
  (n : nat) :
  element < length (document w) ->
  let timer := nextTimer w in
  let w' := Nat.iter (S n) (interval_fires timer)
              (animateCounter element NaN w) in
  is_Some (intervals w' !! timer)
  /\ text_of element (document w') = toLocaleString NaN.
Proof.
  intros Hel timer w'.
  destruct (NaN_interval_goes_on timer element (Fin 0)
              (animateCounter element NaN w) n) as (Hi & Ht & _).
  - apply animateCounter_intervals.
  - exact Hel.
  - split; [by eexists|exact Ht].
Qed.

Lemma animateCounter_NaN_goes_on_witness :
  let w := DOMContentLoaded (Sample.scrolled 0) Sample.page in
  let w' := Nat.iter 4 (@interval_fires Sample.en_US (nextTimer w))
              (animateCounter 9 NaN w) in
  is_Some (intervals w' !! nextTimer w)
  /\ text_of 9 (document w') = "NaN".
Proof.
  apply (@animateCounter_NaN_goes_on Sample.en_US 9
           (DOMContentLoaded (Sample.scrolled 0) Sample.page) 3).
  vm_compute. lia.
Defined.

(** ** Smooth scrolling *)

(** X3 is [anchor_click_outcome] above; here it is run on link 3 of the
    sample page. *)
Lemma anchor_click_outcome_witness :
  let outcome := @click Sample.simple_selectors
                   (initSmoothScrolling Sample.page) 3 Sample.page in
  defaultPrevented outcome = true
  /\ match @querySelector_string Sample.simple_selectors "#stats" Sample.page with
     | Found target =>
         scrolledIntoView outcome = Some (mkScrollRequest target smooth start)
         /\ uncaught outcome = false
     | Null => scrolledIntoView outcome = None /\ uncaught outcome = false
     | SyntaxError => scrolledIntoView outcome = None /\ uncaught outcome = true
     end.
Proof.
  apply (@anchor_click_outcome Sample.simple_selectors Sample.page 3
           (Sample.element "a" (Some 1) [("href", "#stats")] ["reveal"] "Stats")
           "#stats"); reflexivity.
Defined.




(** ** The stats observer *)

Lemma NoDup_querySelectorAll_from (root : nat) (sel : Selector) (doc : Document) :
  NoDup (querySelectorAll_from root sel doc).
Proof. apply NoDup_filter, NoDup_querySelectorAll. Qed.

Lemma querySelectorAll_from_lt (root : nat) (sel : Selector) (doc : Document)
  (i : nat) :
  i ∈ querySelectorAll_from root sel doc -> i < length doc.
Proof.
  unfold querySelectorAll_from. rewrite list_elem_of_filter.
  intros [_ Hi]. apply elem_of_querySelectorAll in Hi. by eapply matches_lt.
Qed.

Lemma start_counters_spec (stats : list nat) (w : World) :
  NoDup stats ->
  let w' := forEach stats start_counter w in
  (forall k stat, stats !! k = Some stat ->
     intervals w' !! (nextTimer w + k)
     = Some (animateCounter_closure stat
               (parseInt (remove_commas (text_of stat (document w))))))
  /\ (forall i, document w' !! i
                = if bool_decide (i ∈ stats)
                  then set_textContent "0" <$> document w !! i
                  else document w !! i)
  /\ (forall t, t < nextTimer w -> intervals w' !! t = intervals w !! t).
Proof.
  intros Hnd. revert w. induction Hnd as [|stat l Hstat Hnd IH]; intros w;
    cbv zeta.
  - rewrite forEach_nil. split; [intros k stat Hk; by rewrite lookup_nil in Hk|].
    split; [|done]. intros i. by rewrite bool_decide_eq_false_2 by apply not_elem_of_nil.
  - rewrite forEach_cons.
    destruct (IH (start_counter stat w)) as (Hi & Hd & Ho).
    assert (Hnext : nextTimer (start_counter stat w) = S (nextTimer w)) by done.
    assert (Hdoc : forall i, document (start_counter stat w) !! i
                     = if bool_decide (i = stat)
                       then set_textContent "0" <$> document w !! i
                       else document w !! i).
    { intros i. unfold start_counter. cbn [document animateCounter setInterval
        with_document]. unfold modify. case_bool_decide as Heq.
      - subst i. apply list_lookup_alter_eq.
      - by apply list_lookup_alter_ne. }
    split; [|split].
    + intros [|k] stat' Hk.
      * injection Hk as <-. rewrite Nat.add_0_r, Ho by lia.
        exact (animateCounter_intervals stat _
                 (with_document (modify stat (set_textContent "0")) w)).
      * cbn [lookup list_lookup] in Hk. specialize (Hi k stat' Hk).
        rewrite Hnext in Hi. rewrite <- Nat.add_succ_comm, Hi.
        do 3 f_equal. unfold text_of. rewrite Hdoc.
        rewrite bool_decide_eq_false_2; [done|].
        intros ->. apply Hstat. by eapply list_elem_of_lookup_2.
    + intros i. rewrite Hd, Hdoc.
      destruct (decide (i = stat)) as [->|Hne].
      * rewrite (bool_decide_eq_false_2 (stat ∈ l)) by done.
        rewrite (bool_decide_eq_true_2 (stat = stat)) by done.
        rewrite bool_decide_eq_true_2; [done|left].
      * rewrite (bool_decide_eq_false_2 (i = stat)) by done.
        apply (f_equal (fun b : bool => if b then _ else _)).
        apply bool_decide_ext. rewrite elem_of_cons. tauto.
    + intros t Ht. rewrite Ho by lia.
      unfold start_counter. cbn [intervals animateCounter setInterval
        with_document nextTimer].
      apply lookup_insert_ne. lia.
Qed.

Lemma stats_update_visible_eq (visible : nat -> bool) (w : World)
  (section : nat) :
  statsObserved w = [section] -> visible section = true ->
  stats_update visible w
  = with_statsObserved (unobserve section)
      (forEach (querySelectorAll_from section (Class "stat-number") (document w))
               start_counter w).
Proof.
  unfold stats_update, entries_of. intros -> Hv. cbn [map].
  unfold statsObserver_callback. rewrite forEach_cons, forEach_nil.
  cbn [isIntersecting entry_target]. by rewrite Hv.
Qed.

Lemma stats_trigger_counters_spec (visible : nat -> bool) (w : World)
  (section : nat) :
  statsObserved w = [section] -> visible section = true ->
  (forall k stat,
     querySelectorAll_from section (Class "stat-number") (document w) !! k
     = Some stat ->
     text_of stat (document (stats_update visible w)) = "0"
     /\ intervals (stats_update visible w) !! (nextTimer w + k)
        = Some (animateCounter_closure stat
                  (parseInt (remove_commas (text_of stat (document w))))))
  /\ length (document (stats_update visible w)) = length (document w).
Proof.
  intros Hobs Hv.
  rewrite (stats_update_visible_eq visible w section Hobs Hv).
  set (stats := querySelectorAll_from section (Class "stat-number") (document w)).
  destruct (start_counters_spec stats w) as (Hi & Hd & _);
    [apply NoDup_querySelectorAll_from|].
  cbn [document intervals with_statsObserved]. split.
  - intros k stat Hk. split; [|by apply Hi].
    assert (Hin : stat ∈ stats) by by eapply list_elem_of_lookup_2.
    unfold text_of. rewrite Hd, bool_decide_eq_true_2 by done.
    apply querySelectorAll_from_lt in Hin.
    by destruct (lookup_lt_is_Some_2 _ _ Hin) as [e ->].
  - apply (forEach_keeps
             (fun w' => length (document w') = length (document w))); [|done].
    intros stat w' Hw'. unfold start_counter.
    cbn [document animateCounter setInterval with_document].
    by rewrite length_modify.
Qed.

(** X5: when the watched section is first reported as intersecting, every
    [.stat-number] in it has its text reset to [0] and gets a counter of
    its own, whose target is [parseInt] of the text it had, commas
    removed; the counters get consecutive timer ids in document order. *)
Theorem stats_trigger_starts_counters (visible : nat -> bool) (w : World)
  (section : nat) :
  statsObserved w = [section] -> visible section = true ->
  let stats := querySelectorAll_from section (Class "stat-number") (document w) in
  let w1 := stats_update visible w in
  forall k stat, stats !! k = Some stat ->
    text_of stat (document w1) = "0"
    /\ intervals w1 !! (nextTimer w + k)
       = Some (animateCounter_closure stat
                 (parseInt (remove_commas (text_of stat (document w))))).
Proof.
  intros Hobs Hv stats w1.
  by destruct (stats_trigger_counters_spec visible w section Hobs Hv).
Qed.

(** Statistic 8, the first of the sample page. *)
Lemma stats_trigger_starts_counters_witness :
  let w := DOMContentLoaded (Sample.scrolled 0) Sample.page in
  let w1 := stats_update (fun _ => true) w in
  text_of 8 (document w1) = "0"
  /\ intervals w1 !! (nextTimer w + 0)
     = Some (animateCounter_closure 8
               (parseInt (remove_commas (text_of 8 (document w))))).
Proof.
  apply (stats_trigger_starts_counters (fun _ => true)
           (DOMContentLoaded (Sample.scrolled 0) Sample.page) 7);
    reflexivity.
Defined.

(** ** parseInt *)

Lemma append_nil_l (s : string) : "" ++ s = s.
Proof. reflexivity. Qed.

Lemma append_cons (a : Ascii.ascii) (s1 s2 : string) :
  String a s1 ++ s2 = String a (s1 ++ s2).
Proof. reflexivity. Qed.

Lemma digits_stop (radix : Z) (ds rest : string) (c : Ascii.ascii)
  (acc : option Z) :
  all_digits radix ds = true ->
  digit_value radix c = None ->
  digits radix (ds ++ String c rest) acc = digits radix ds acc.
Proof.
  revert acc. induction ds as [|a ds IH]; intros acc Hds Hc.
  - rewrite append_nil_l. cbn [digits]. by rewrite Hc.
  - cbn [all_digits] in Hds. apply andb_true_iff in Hds as [Ha Hds].
    apply bool_decide_eq_true in Ha as [d Hd].
    rewrite append_cons. cbn [digits]. rewrite Hd. by apply IH.
Qed.

(** The steps of [parseInt] on a string that begins with a character that
    is no white space, no sign, and does not open the prefix [0x]. *)
Lemma parseInt_plain (a : Ascii.ascii) (s : string) :
  is_space a = false -> a <> "-"%char -> a <> "+"%char ->
  (a <> "0"%char
   \/ ((forall s', s <> String "x"%char s')
       /\ (forall s', s <> String "X"%char s'))) ->
  parseInt (String a s)
  = match digits 10 (String a s) None with
    | Some z => of_Z (1 * z)
    | None => NaN
    end.
Proof.
  intros Hsp Hminus Hplus Hhex. unfold parseInt. cbn [skip_spaces].
  rewrite Hsp.
  destruct a as [[] [] [] [] [] [] [] []]; try reflexivity; try congruence.
  destruct Hhex as [Hhex|[Hx HX]]; [congruence|].
  destruct s as [|b s]; [reflexivity|].
  destruct b as [[] [] [] [] [] [] [] []]; try reflexivity.
  - by destruct (Hx s).
  - by destruct (HX s).
Qed.

Lemma decimal_digit_plain (a : Ascii.ascii) :
  is_Some (digit_value 10 a) ->
  is_space a = false /\ a <> "-"%char /\ a <> "+"%char
  /\ a <> "x"%char /\ a <> "X"%char.
Proof.
  intros [d Hd].
  destruct a as [[] [] [] [] [] [] [] []]; vm_compute in Hd; try discriminate;
    repeat split; (reflexivity || discriminate).
Qed.

(** X6: [parseInt] reads the leading decimal digits and ignores whatever
    follows them: when [ds] is a non-empty string of decimal digits and
    [c] is not one, [parseInt (ds ++ c ++ rest)] is [parseInt ds]; the one
    exception is the prefix [0x], which switches to base 16. *)
Theorem parseInt_ignores_suffix (ds rest : string) (c : Ascii.ascii) :
  all_digits 10 ds = true ->
  ds <> "" ->
  digit_value 10 c = None ->
  ~ (ds = "0" /\ (c = "x"%char \/ c = "X"%char)) ->
  parseInt (ds ++ String c rest) = parseInt ds.
Proof.
  intros Hds Hne Hc Hhex.
  destruct ds as [|a ds]; [done|].
  pose proof Hds as Hall.
  cbn [all_digits] in Hds. apply andb_true_iff in Hds as [Ha Hds].
  apply bool_decide_eq_true in Ha.
  destruct (decimal_digit_plain a Ha) as (Hsp & Hminus & Hplus & _).
  rewrite append_cons, !parseInt_plain; try done.
  - by rewrite <- append_cons, (digits_stop 10 (String a ds) rest c None Hall Hc).
  - destruct ds as [|b ds]; [|right].
    + destruct (decide (a = "0"%char)) as [->|Hn0]; [|by left].
      right. split; intros s' Heq; discriminate.
    + cbn [all_digits] in Hds. apply andb_true_iff in Hds as [Hb _].
      apply bool_decide_eq_true in Hb.
      destruct (decimal_digit_plain b Hb) as (_ & _ & _ & Hx & HX).
      split; intros s' Heq; injection Heq as ? ?; congruence.
  - destruct ds as [|b ds].
    + destruct (decide (a = "0"%char)) as [->|Hn0]; [|by left].
      right. rewrite append_nil_l.
      split; intros s' Heq; injection Heq as -> _; apply Hhex; auto.
    + right. rewrite append_cons.
      cbn [all_digits] in Hds. apply andb_true_iff in Hds as [Hb _].
      apply bool_decide_eq_true in Hb.
      destruct (decimal_digit_plain b Hb) as (_ & _ & _ & Hx & HX).
      split; intros s' Heq; injection Heq as ? ?; congruence.
Qed.

Lemma parseInt_ignores_suffix_witness :
  parseInt ("24" ++ String "/"%char "7") = parseInt "24".
Proof.
  apply (parseInt_ignores_suffix "24" "7" "/"%char); try reflexivity.
  - discriminate.
  - intros [Heq _]. discriminate.
Defined.

(** A text whose first character is an ASCII character that is neither
    white space, nor a sign, nor a decimal digit does not parse. *)
Lemma parseInt_without_digit (c : Ascii.ascii) (rest : string) :
  is_space c = false -> c <> "-"%char -> c <> "+"%char ->
  digit_value 10 c = None ->
  parseInt (String c rest) = NaN.
Proof.
  intros Hsp Hminus Hplus Hc.
  rewrite parseInt_plain; try done.
  - cbn [digits]. by rewrite Hc.
  - left. intros ->. vm_compute in Hc. discriminate.
Qed.

(** X7: a statistic whose text begins with an ASCII character that is
    neither white space, nor a sign, nor a comma, nor a decimal digit has
    no number to count to: when the watched section is first reported as
    intersecting, its counter gets the target [NaN]. *)
Theorem stat_without_digit_counts_to_NaN (visible : nat -> bool) (w : World)
  (section k stat : nat) (c : Ascii.ascii) (rest : string) :
  statsObserved w = [section] -> visible section = true ->
  querySelectorAll_from section (Class "stat-number") (document w) !! k
  = Some stat ->
  text_of stat (document w) = String c rest ->
  (Z.of_N (Ascii.N_of_ascii c) < 128)%Z ->
  is_space c = false -> c <> "-"%char -> c <> "+"%char -> c <> ","%char ->
  digit_value 10 c = None ->
  intervals (stats_update visible w) !! (nextTimer w + k)
  = Some (animateCounter_closure stat NaN).
Proof.
  intros Hobs Hv Hk Htext _ Hsp Hminus Hplus Hcomma Hc.
  destruct (stats_trigger_counters_spec visible w section Hobs Hv) as [Hstats _].
  destruct (Hstats k stat Hk) as [_ ->].
  rewrite Htext. cbn [remove_commas].
  rewrite (proj2 (Ascii.eqb_neq c ","%char)) by done.
  by rewrite parseInt_without_digit.
Qed.

(** Statistic 10 of the sample page reads [<1s]. *)
Lemma stat_without_digit_counts_to_NaN_witness :
  let w := DOMContentLoaded (Sample.scrolled 0) Sample.page in
  intervals (stats_update (fun _ => true) w) !! (nextTimer w + 2)
  = Some (animateCounter_closure 10 NaN).
Proof.
  apply (stat_without_digit_counts_to_NaN (fun _ => true)
           (DOMContentLoaded (Sample.scrolled 0) Sample.page) 7 2 10
           "<"%char "1s"); try reflexivity; discriminate.
Defined.

(** ** Counters in the page *)

Lemma interval_finishes `{Locale} (timer element : nat) (target : number)
  (w : World) :
  intervals w !! timer = Some (animateCounter_closure element target) ->
  target <> NaN -> element < length (document w) ->
  exists n,
    let w' := Nat.iter n (interval_fires timer) w in
    intervals w' !! timer = None
    /\ text_of element (document w') = toLocaleString target.
Proof.
  intros Hc Hnan Hel.
  assert (Hcase : match target with
                  | NaN => False | Fin q => (q <= 0)%Q | _ => True end
                  \/ exists q, target = Fin q /\ (0 < q)%Q).
  { destruct target as [| |q|]; auto.
    destruct (Qlt_le_dec 0 q); [right; by exists q|by left]. }
  destruct Hcase as [Hfirst|(q & -> & Hq)].
  - exists 1. cbn [Nat.iter nat_rect].
    destruct (first_tick_stops element target Hfirst) as [c' Hcb].
    destruct (interval_fires_stops _ _ _ _ _ Hc Hcb) as [Hi Hd].
    split; [done|]. rewrite Hd. cbn [cn_element animateCounter_closure].
    by rewrite text_of_modify.
  - exists 125. rewrite Nat.iter_succ.
    destruct (positive_interval_goes_on timer element q _ 124 Hq
                ltac:(lia) Hc) as (Hlen & x & Hx & Hcx).
    set (wk := Nat.iter 124 _ _) in *.
    destruct (interval_fires_stops timer wk _
                (mkCounter element (Fin q) (Fin (q / (2000 / 16)))
                           (Fin (x + q / (2000 / 16)))) (Fin q) Hcx)
      as [Hi Hd].
    { unfold counter_callback.
      cbn [cn_element cn_target cn_increment cn_current].
      by rewrite (reaches_target q x Hx). }
    split; [done|]. rewrite Hd. cbn [cn_element].
    rewrite text_of_modify; [done|]. rewrite Hlen. done.
Qed.

(** X8: the counters the stats observer starts reach their targets. When
    the watched section is first reported as intersecting, a statistic
    whose text parses to a number other than [NaN] is, after enough ticks
    of its own interval, shown as that number rendered by
    [toLocaleString], and its interval is cleared. *)
Theorem stats_counter_settles `{Locale} (visible : nat -> bool) (w : World)
  (section k stat : nat) (target : number) :
  statsObserved w = [section] -> visible section = true ->
  querySelectorAll_from section (Class "stat-number") (document w) !! k
  = Some stat ->
  parseInt (remove_commas (text_of stat (document w))) = target ->
  target <> NaN ->
  exists n,
    let w' := Nat.iter n (interval_fires (nextTimer w + k))
                (stats_update visible w) in
    intervals w' !! (nextTimer w + k) = None
    /\ text_of stat (document w') = toLocaleString target.
Proof.
  intros Hobs Hv Hk Htarget Hnan.
  destruct (stats_trigger_counters_spec visible w section Hobs Hv)
    as (Hstart & Hlen).
  destruct (Hstart k stat Hk) as [_ Hc]. rewrite Htarget in Hc.
  apply (interval_finishes _ stat target _ Hc Hnan).
  rewrite Hlen. eapply querySelectorAll_from_lt.
  by eapply list_elem_of_lookup_2.
Qed.

Lemma stats_counter_settles_witness :
  let w := DOMContentLoaded (Sample.scrolled 0) Sample.page in
  exists n,
    let w' := Nat.iter n (@interval_fires Sample.en_US (nextTimer w + 1))
                (stats_update (fun _ => true) w) in
    intervals w' !! (nextTimer w + 1) = None
    /\ text_of 9 (document w') = "24".
Proof.
  apply (@stats_counter_settles Sample.en_US (fun _ => true)
           (DOMContentLoaded (Sample.scrolled 0) Sample.page) 7 1 9 (Fin 24));
    try reflexivity.
  discriminate.
Defined.

(** X9: a target that is zero, negative or infinite is not counted up to:
    the first tick writes the rendering of the target and clears the
    interval. *)
Theorem animateCounter_jumps_to_nonpositive `{Locale} (element : nat)
  (target : number) (w : World) :
  match target with
  | NaN => False
  | Fin q => (q <= 0)%Q
  | _ => True
  end ->
  element < length (document w) ->
  let w' := interval_fires (nextTimer w) (animateCounter element target w) in
  intervals w' !! nextTimer w = None
  /\ text_of element (document w') = toLocaleString target.
Proof.
  intros Htarget Hel w'.
  destruct (first_tick_stops element target Htarget) as [c' Hcb].
  destruct (interval_fires_stops _ _ _ _ _
              (animateCounter_intervals element target w) Hcb) as [Hi Hd].
  split; [done|]. unfold w'. rewrite Hd.
  cbn [cn_element animateCounter_closure]. by rewrite text_of_modify.
Qed.

Lemma animateCounter_jumps_to_nonpositive_witness :
  let w := DOMContentLoaded (Sample.scrolled 0) Sample.page in
  let w' := @interval_fires Sample.en_US (nextTimer w)
              (animateCounter 8 (Fin (-40)) w) in
  intervals w' !! nextTimer w = None
  /\ text_of 8 (document w') = "-40".
Proof.
  apply (@animateCounter_jumps_to_nonpositive Sample.en_US 8 (Fin (-40))
           (DOMContentLoaded (Sample.scrolled 0) Sample.page)).
  - vm_compute. discriminate.
  - vm_compute. lia.
Defined.


(** ** Debounce, in general *)

Lemma last_cons_default {A : Type} (x d : A) (l : list A) :
  List.last (x :: l) d = List.last l x.
Proof.
  revert x d. induction l as [|y l IH]; intros x d; [done|].
  change (List.last (x :: y :: l) d) with (List.last (y :: l) d).
  by rewrite !IH.
Qed.

Section DebounceInGeneral.
Context {Args : Type}.
Variable wait : Z.

Let d : Z := delay_of wait.

(** The calls of one task after the first: each replaces the timeout of
    the call before, and the clock stands still. *)
Lemma calls_in_task (more : list Args) (t : Z) (a : Args)
  (log : list (Z * Args)) (st : State Args) :
  armed d st t a log ->
  armed d (forEach more (executedFunction wait) st) t (List.last more a) log.
Proof.
  revert a st. induction more as [|a' more IH]; intros a st Harmed; [done|].
  rewrite forEach_cons.
  rewrite last_cons_default.
  apply IH.
  pose proof (executedFunction_arms wait a' st
                (armed_one_timeout wait t a log st Harmed)) as Harms.
  destruct Harmed as (_ & _ & _ & Hnow & Hlog).
  by rewrite Hnow, Hlog in Harms.
Qed.

Lemma task_at_first (t : Z) (a : Args) (more : list Args) (st : State Args) :
  pending st = [] -> (now st <= t)%Z ->
  armed d (task_at wait (t, (a, more)) st) t (List.last more a) (executed st).
Proof.
  intros Hp Hnow. unfold task_at. rewrite forEach_cons.
  apply calls_in_task. by apply (call_at_idle wait t a st).
Qed.

Lemma task_at_early (p t : Z) (b a : Args) (more : list Args)
  (log : list (Z * Args)) (st : State Args) :
  armed d st p b log -> (p <= t)%Z -> (t < p + d)%Z ->
  armed d (task_at wait (t, (a, more)) st) t (List.last more a) log.
Proof.
  intros Harmed Hpt Htw. unfold task_at. rewrite forEach_cons.
  apply calls_in_task. by apply (call_at_armed wait p t b a log st).
Qed.

Lemma task_at_late (p t : Z) (b a : Args) (more : list Args)
  (log : list (Z * Args)) (st : State Args) :
  armed d st p b log -> (p + d <= t)%Z ->
  armed d (task_at wait (t, (a, more)) st) t (List.last more a)
        (log ++ [((p + d)%Z, b)])%list.
Proof.
  intros Harmed Hpt. unfold task_at. rewrite forEach_cons.
  apply calls_in_task.
  rewrite (advance_armed_fires wait t p b log st Harmed Hpt).
  apply (executedFunction_arms wait a
           (mkState t [] (next_id st) (timeout st)
                    (log ++ [((p + d)%Z, b)])%list)).
  by left.
Qed.

Lemma tasks_at_cons (task : Z * (Args * list Args))
  (tasks : list (Z * (Args * list Args))) (st : State Args) :
  tasks_at wait (task :: tasks) st = tasks_at wait tasks (task_at wait task st).
Proof. reflexivity. Qed.

Lemma tasks_settle (tasks : list (Z * (Args * list Args))) (p : Z) (b : Args)
  (log : list (Z * Args)) (st : State Args) (T : Z) :
  armed d st p b log ->
  spaced d (Some p) tasks = true ->
  (p + d <= T)%Z ->
  Forall (fun task => (fst task + d <= T)%Z) tasks ->
  executed (advance T (tasks_at wait tasks st))
  = (log ++ settled_from d p b (map last_call tasks))%list.
Proof.
  revert p b log st.
  induction tasks as [|[t [a more]] tasks IH]; intros p b log st Harmed Hsp Hp HT.
  - unfold tasks_at. rewrite forEach_nil.
    by rewrite (advance_armed_fires wait T p b log st Harmed).
  - cbn [spaced] in Hsp. apply andb_true_iff in Hsp as [Hpt Hsp].
    apply andb_true_iff in Hpt as [Hpt _]. apply Z.ltb_lt in Hpt.
    rewrite tasks_at_cons. cbn [map last_call settled_from].
    apply Forall_cons in HT as [Ht HT]. cbn [fst] in Ht.
    destruct (Z.ltb_spec t (p + d)) as [Hearly|Hlate].
    + rewrite (IH t (List.last more a) log); [done| |done|done|done].
      apply task_at_early with p b; [done|lia|done].
    + rewrite (IH t (List.last more a) (log ++ [((p + d)%Z, b)])%list);
        [| |done|done|done].
      * by rewrite <- app_assoc.
      * by apply task_at_late.
Qed.

Lemma one_timeout_executedFunction (a : Args) (st : State Args) :
  one_timeout st -> one_timeout (executedFunction wait a st).
Proof.
  intros Hone.
  by apply (armed_one_timeout wait (now st) a (executed st)),
           executedFunction_arms.
Qed.

Lemma one_timeout_advance (T : Z) (st : State Args) :
  one_timeout st -> one_timeout (advance T st).
Proof.
  intros [Hp|(id & due & b & Hp & Hto)].
  - left. by rewrite (advance_idle T st Hp).
  - unfold advance. rewrite Hp. simpl. rewrite Hp. simpl.
    destruct (Z.leb_spec due T).
    + left. unfold later, clearTimeout. simpl.
      by rewrite (filter_cons_False (fun t' => tm_id t' <> id))
        by (simpl; tauto).
    + right. exists id, due, b. simpl. by rewrite Hp.
Qed.

End DebounceInGeneral.

(** X10: what a debounced function does with any sequence of tasks that
    call it, each task calling it once or several times in a row. The
    tasks start at increasing times while no earlier timeout is pending,
    none at the very moment the timeout of the task before is due; the
    delay is [wait] as the host takes it ([delay_of]). Once the delay has
    passed after the last task, [func] has been called once for each task
    that was not followed by another within the delay, at the start of
    that task plus the delay and with the arguments of the last call of
    that task, in the order of the tasks. *)
Theorem debounce_runs_settled_calls {Args : Type} (wait : Z) (st : State Args)
  (tasks : list (Z * (Args * list Args))) (T : Z) :
  pending st = [] ->
  spaced (delay_of wait) None tasks = true ->
  Forall (fun task => (now st <= fst task)%Z) tasks ->
  Forall (fun task => (fst task + delay_of wait <= T)%Z) tasks ->
  executed (advance T (tasks_at wait tasks st))
  = (executed st ++ settled wait tasks)%list.
Proof.
  intros Hidle Hsp Hnow HT. destruct tasks as [|[t [a more]] tasks].
  - unfold tasks_at. rewrite forEach_nil, (advance_idle T st Hidle).
    cbn [executed settled map]. by rewrite app_nil_r.
  - cbn [spaced] in Hsp.
    apply Forall_cons in Hnow as [Hnow _]. cbn [fst] in Hnow.
    pose proof HT as HT'. apply Forall_cons in HT' as [Ht HT']. cbn [fst] in Ht.
    rewrite tasks_at_cons. unfold settled. cbn [map last_call].
    apply (tasks_settle wait); [|done|done|done].
    by apply task_at_first.
Qed.

Lemma debounce_runs_settled_calls_witness :
  let st := mkState 0 [] 1 None [] in
  executed (advance 100
              (tasks_at 10 [(0%Z, ("a", [])); (4%Z, ("b", ["c"; "d"]));
                            (15%Z, ("e", [])); (30%Z, ("f", ["g"]))] st))
  = [(14%Z, "d"); (25%Z, "e"); (40%Z, "g")].
Proof.
  apply (debounce_runs_settled_calls 10 (mkState 0 [] 1 None [])
           [(0%Z, ("a", [])); (4%Z, ("b", ["c"; "d"]));
            (15%Z, ("e", [])); (30%Z, ("f", ["g"]))] 100).
  - reflexivity.
  - reflexivity.
  - repeat constructor; simpl; lia.
  - repeat constructor; vm_compute; discriminate.
Defined.

(** X11: a debounced function never has more than one timeout pending,
    whenever and however often it is called: each call clears the timeout
    of the call before. *)
Theorem debounce_one_timeout_pending {Args : Type} (wait : Z) (st : State Args)
  (calls : list (Z * Args)) (T : Z) :
  pending st = [] ->
  length (pending (calls_at wait calls st)) <= 1
  /\ length (pending (advance T (calls_at wait calls st))) <= 1.
Proof.
  intros Hidle.
  assert (Hone : one_timeout (calls_at wait calls st)).
  { unfold calls_at. apply forEach_keeps; [|by left].
    intros call st' Hst'. unfold call_at.
    by apply one_timeout_executedFunction, one_timeout_advance. }
  split.
  - by destruct Hone as [->|(id & due & a & -> & _)]; simpl; lia.
  - destruct (one_timeout_advance T _ Hone) as [->|(id & due & a & -> & _)];
      simpl; lia.
Qed.

Lemma debounce_one_timeout_pending_witness :
  let st := mkState 0 [] 1 None [] in
  length (pending (calls_at 10 [(5%Z, "a"); (2%Z, "b"); (40%Z, "c")] st)) <= 1
  /\ length (pending (advance 45
                        (calls_at 10 [(5%Z, "a"); (2%Z, "b"); (40%Z, "c")] st)))
     <= 1.
Proof.
  apply (debounce_one_timeout_pending 10 (mkState 0 [] 1 None [])
           [(5%Z, "a"); (2%Z, "b"); (40%Z, "c")] 45).
  reflexivity.
Defined.

(** ** What the scroll handlers leave alone *)

Lemma classList_add_twice (c : string) (e : Element) :
  classList_add c (classList_add c e) = classList_add c e.
Proof.
  unfold classList_add. cbn [tagName parentNode attributes classList textContent].
  f_equal. by rewrite (assoc_L (∪)), (idemp_L (∪)).
Qed.

Lemma reveal_one_twice (lay : Layout) (j : nat) (e : Element) :
  reveal_one lay j (reveal_one lay j e) = reveal_one lay j e.
Proof.
  unfold reveal_one. destruct (Qlt_bool _ _); [|done].
  apply classList_add_twice.
Qed.

Lemma revealOnScroll_keeps_reveal (lay : Layout) (doc : Document) (j : nat) :
  matches (revealOnScroll lay doc) (Class "reveal") j
  = matches doc (Class "reveal") j.
Proof.
  cbn [matches]. unfold on_element at 1. rewrite revealOnScroll_lookup.
  cbn [matches]. unfold on_element.
  destruct (doc !! j) as [e|]; [|reflexivity].
  cbn [from_option]. destruct (contains "reveal" e) eqn:Hc.
  2:{ exact Hc. }
  cbn [fmap option_fmap option_map from_option].
  unfold reveal_one. destruct (Qlt_bool _ _); [|done].
  unfold contains in *. apply bool_decide_eq_true. apply bool_decide_eq_true in Hc.
  apply elem_of_classList_add. by right.
Qed.

(** X12: [revealOnScroll] is idempotent: a second call with the same
    layout changes nothing. *)
Theorem revealOnScroll_idempotent (lay : Layout) (doc : Document) :
  revealOnScroll lay (revealOnScroll lay doc) = revealOnScroll lay doc.
Proof.
  apply list_eq. intros j.
  rewrite (revealOnScroll_lookup lay (revealOnScroll lay doc)).
  rewrite revealOnScroll_keeps_reveal, revealOnScroll_lookup.
  destruct (matches doc (Class "reveal") j); [|done].
  destruct (doc !! j) as [e|]; [|done]. simpl. by rewrite reveal_one_twice.
Qed.

(** X13: [revealOnScroll] changes nothing but the class [active], and
    that only on elements with the class [reveal] above the reveal line:
    tag, parent, attributes, text and every other class of every element
    are as before. *)
Theorem revealOnScroll_changes_only_active (lay : Layout) (doc : Document)
  (j : nat) (e : Element) :
  doc !! j = Some e ->
  exists e', revealOnScroll lay doc !! j = Some e'
    /\ differs_in_active e e'
    /\ ("active" ∈ classList e'
        <-> "active" ∈ classList e
            \/ (matches doc (Class "reveal") j = true
                /\ (boundingTop lay j < inject_Z (innerHeight lay) - 100)%Q)).
Proof.
  intros He. rewrite revealOnScroll_lookup, He.
  destruct (matches doc (Class "reveal") j); simpl.
  - exists (reveal_one lay j e). split; [done|]. split.
    + unfold reveal_one. destruct (Qlt_bool _ _); [|by repeat split].
      repeat split; try done; rewrite elem_of_classList_add; [|auto].
      by intros [->|Hc].
    + rewrite classList_reveal_one. intuition.
  - exists e. split; [done|]. split; [by repeat split|].
    intuition discriminate.
Qed.

Lemma revealOnScroll_changes_only_active_witness :
  exists e', revealOnScroll (Sample.scrolled 0) Sample.page !! 3 = Some e'
    /\ differs_in_active
         (Sample.element "a" (Some 1) [("href", "#stats")] ["reveal"] "Stats") e'
    /\ ("active" ∈ classList e'
        <-> "active" ∈ classList (Sample.element "a" (Some 1)
                                     [("href", "#stats")] ["reveal"] "Stats")
            \/ (matches Sample.page (Class "reveal") 3 = true
                /\ (boundingTop (Sample.scrolled 0) 3
                    < inject_Z (innerHeight (Sample.scrolled 0)) - 100)%Q)).
Proof.
  apply (revealOnScroll_changes_only_active (Sample.scrolled 0) Sample.page 3).
  reflexivity.
Defined.

(** X14: [updateActiveNavLink] changes nothing but the class [active] of
    the links of [.nav-links]: every other element is exactly as before,
    and a link keeps its tag, parent, attributes, text and other classes. *)
Theorem updateActiveNavLink_changes_only_links (lay : Layout) (doc : Document)
  (j : nat) (e : Element) :
  doc !! j = Some e ->
  exists e', updateActiveNavLink lay doc !! j = Some e'
    /\ differs_in_active e e'
    /\ (j ∉ navLinks_of doc -> e' = e).
Proof.
  intros He. rewrite updateActiveNavLink_lookup, He.
  destruct (matches doc _ j) eqn:Hm; simpl.
  - exists (mark_link (current_section lay doc) e). split; [done|]. split.
    + unfold mark_link. case_bool_decide; repeat split; try done;
        rewrite ?elem_of_classList_add, elem_of_classList_remove;
        intuition congruence.
    + intros Hn. destruct Hn. by apply elem_of_querySelectorAll.
  - exists e. split; [done|]. split; [by repeat split|done].
Qed.

Lemma updateActiveNavLink_changes_only_links_witness :
  exists e', updateActiveNavLink (Sample.scrolled 1400) Sample.page !! 7 = Some e'
    /\ differs_in_active
         (Sample.element "section" (Some 0) [("id", "stats")]
            ["stats"; "reveal"] "") e'
    /\ (7 ∉ navLinks_of Sample.page ->
        e' = Sample.element "section" (Some 0) [("id", "stats")]
               ["stats"; "reveal"] "").
Proof.
  apply (updateActiveNavLink_changes_only_links (Sample.scrolled 1400)
           Sample.page 7).
  reflexivity.
Defined.

(** X15: after [updateActiveNavLink] all the links of [.nav-links] that
    carry [active] have the same [href], which begins with [#]; a link
    without [href] never carries it. *)
Theorem active_links_share_href (lay : Layout) (doc : Document)
  (l1 l2 : nat) (e1 e2 : Element) :
  l1 ∈ navLinks_of doc -> l2 ∈ navLinks_of doc ->
  updateActiveNavLink lay doc !! l1 = Some e1 ->
  updateActiveNavLink lay doc !! l2 = Some e2 ->
  "active" ∈ classList e1 -> "active" ∈ classList e2 ->
  exists id, getAttribute "href" e1 = Some ("#" ++ id)
    /\ getAttribute "href" e2 = Some ("#" ++ id).
Proof.
  intros Hl1 Hl2 He1 He2 Ha1 Ha2.
  exists (default "null" (current_section lay doc)).
  apply elem_of_querySelectorAll in Hl1, Hl2.
  rewrite updateActiveNavLink_lookup, Hl1 in He1.
  rewrite updateActiveNavLink_lookup, Hl2 in He2.
  destruct (doc !! l1) as [d1|]; [|discriminate].
  destruct (doc !! l2) as [d2|]; [|discriminate].
  injection He1 as <-. injection He2 as <-.
  apply classList_mark_link in Ha1, Ha2.
  assert (Hhref : forall d, getAttribute "href" (mark_link (current_section lay doc) d)
                            = getAttribute "href" d).
  { intros d. unfold mark_link. by case_bool_decide. }
  by rewrite !Hhref.
Qed.

(** On the sample page with a footer, scrolled to the first section, the
    link to it in the navigation (2) and the one in the footer (12) are
    both active. *)
Lemma active_links_share_href_witness :
  exists id,
    getAttribute "href"
      (classList_add "active"
         (Sample.element "a" (Some 1) [("href", "#home")] [] "Home"))
    = Some ("#" ++ id)
    /\ getAttribute "href"
         (classList_add "active"
            (Sample.element "a" (Some 11) [("href", "#home")] []
               "Back to the top"))
       = Some ("#" ++ id).
Proof.
  apply (active_links_share_href (Sample.scrolled 150) Sample.page_with_footer
           2 12).
  - apply (bool_decide_unpack _). vm_compute. exact I.
  - apply (bool_decide_unpack _). vm_compute. exact I.
  - vm_compute. reflexivity.
  - vm_compute. reflexivity.
  - apply (bool_decide_unpack _). vm_compute. exact I.
  - apply (bool_decide_unpack _). vm_compute. exact I.
Defined.

(** ** What the script as a whole leaves alone *)

Lemma kept_refl (e : Element) : kept e e.
Proof. by repeat split. Qed.

Lemma kept_trans (e1 e2 e3 : Element) : kept e1 e2 -> kept e2 e3 -> kept e1 e3.
Proof.
  intros (Ht & Hp & Ha & Hc) (Ht' & Hp' & Ha' & Hc').
  split; [congruence|]. split; [congruence|]. split.
  - intros a Hsrc Hclass. by rewrite Ha', Ha.
  - intros c Hact Hl. by rewrite Hc', Hc.
Qed.

Lemma kept_classList_add (c : string) (e : Element) :
  c = "active" \/ c = "loaded" -> kept e (classList_add c e).
Proof.
  intros Hc. split; [done|]. split; [done|]. split; [done|].
  intros d Ha Hl. rewrite elem_of_classList_add.
  split; [|auto]. intros [->|Hd]; [|done]. destruct Hc; congruence.
Qed.

Lemma kept_classList_remove (e : Element) : kept e (classList_remove "active" e).
Proof.
  split; [done|]. split; [done|]. split; [done|].
  intros d Ha Hl. rewrite elem_of_classList_remove. tauto.
Qed.

Lemma kept_set_textContent (t : string) (e : Element) :
  kept e (set_textContent t e).
Proof. by repeat split. Qed.

Lemma kept_set_src (v : string) (e : Element) : kept e (setAttribute "src" v e).
Proof.
  split; [done|]. split; [done|]. split; [|done].
  intros a Hsrc _. unfold getAttribute, setAttribute. cbn [attributes].
  by apply lookup_insert_ne.
Qed.

Lemma handle_kept `{Locale} (ev : Event) (w : World) :
  Forall2 kept (document w) (document (handle ev w)).
Proof.
  apply handle_related; [apply kept_refl|apply kept_trans|].
  destruct ev as [lay|lay|visible|visible|timer|anchor|]; simpl;
    auto using kept_classList_add, kept_classList_remove,
               kept_set_textContent, kept_set_src.
Qed.

Lemma run_kept `{Locale} (evs : list Event) (w : World) :
  Forall2 kept (document w) (document (run evs w)).
Proof.
  unfold run. revert w. induction evs as [|ev evs IH]; intros w.
  - rewrite forEach_nil. apply Forall2_refl_doc, kept_refl.
  - rewrite forEach_cons.
    eapply Forall2_trans; [|apply handle_kept|apply IH].
    intros e1 e2 e3. apply kept_trans.
Qed.

(** *** Setting up *)

Lemma querySelectorAll_ext (sel : Selector) (doc doc' : Document) :
  length doc' = length doc ->
  (forall i, matches doc' sel i = matches doc sel i) ->
  querySelectorAll sel doc' = querySelectorAll sel doc.
Proof.
  intros Hlen Hm. unfold querySelectorAll. rewrite Hlen.
  apply list_filter_iff. intros i. by rewrite Hm.
Qed.

Lemma revealOnScroll_length (lay : Layout) (doc : Document) :
  length (revealOnScroll lay doc) = length doc.
Proof.
  unfold revealOnScroll.
  apply (forEach_keeps (fun d => length d = length doc)); [|done].
  intros i d Hd. destruct (Qlt_bool _ _); [|done]. by rewrite length_modify.
Qed.

Lemma revealOnScroll_on_element (lay : Layout) (doc : Document) (j : nat)
  (p : Element -> bool) :
  (forall e, p (classList_add "active" e) = p e) ->
  on_element (revealOnScroll lay doc) j p = on_element doc j p.
Proof.
  intros Hp. unfold on_element. rewrite revealOnScroll_lookup.
  destruct (doc !! j) as [e|]; [|by destruct (matches doc _ j)].
  destruct (matches doc _ j); [|done]. simpl.
  unfold reveal_one. by destruct (Qlt_bool _ _).
Qed.

Lemma DOMContentLoaded_state (lay : Layout) (doc : Document) :
  let w := DOMContentLoaded lay doc in
  document w = revealOnScroll lay doc
  /\ intervals w = ∅
  /\ statsObserved w = option_list (querySelector (Class "stats") doc)
  /\ imagesObserved w = querySelectorAll (TagAttr "img" "data-src") doc.
Proof.
  intros w. unfold w, DOMContentLoaded, initLazyLoading.
  set (w1 := initStatsObserver _).
  assert (Hstats : querySelector (Class "stats") (revealOnScroll lay doc)
                   = querySelector (Class "stats") doc).
  { unfold querySelector. f_equal.
    apply querySelectorAll_ext; [apply revealOnScroll_length|].
    intros i. cbn [matches]. apply revealOnScroll_on_element.
    intros e. unfold contains. apply bool_decide_ext.
    rewrite elem_of_classList_add. split; [|auto]. by intros [?|?]. }
  assert (Himgs : querySelectorAll (TagAttr "img" "data-src")
                    (revealOnScroll lay doc)
                  = querySelectorAll (TagAttr "img" "data-src") doc).
  { apply querySelectorAll_ext; [apply revealOnScroll_length|].
    intros i. cbn [matches]. by apply revealOnScroll_on_element. }
  assert (H1 : document w1 = revealOnScroll lay doc /\ intervals w1 = ∅
               /\ statsObserved w1
                  = option_list (querySelector (Class "stats") doc)
               /\ imagesObserved w1 = []).
  { unfold w1, initStatsObserver.
    cbn [document with_document]. rewrite Hstats.
    by destruct (querySelector (Class "stats") doc). }
  destruct H1 as (Hd1 & Hi1 & Hs1 & Ho1).
  destruct (initLazyLoading_observes
              (querySelectorAll (TagAttr "img" "data-src") (document w1)) w1)
    as [Hobs Hdoc].
  { rewrite Ho1. apply NoDup_querySelectorAll. }
  split; [by rewrite Hdoc|].
  split.
  { apply (forEach_keeps (fun w' => intervals w' = ∅)); done. }
  split.
  { apply (forEach_keeps
             (fun w' => statsObserved w'
                        = option_list (querySelector (Class "stats") doc)));
      done. }
  by rewrite Hobs, Ho1, Hd1, Himgs.
Qed.

(** X17: what the DOMContentLoaded listener leaves behind: the document
    after one [revealOnScroll], no interval and no timer id handed out,
    the stats observer watching the first element with class [stats] of
    the page if there is one, and the image observer watching the images
    that carry [data-src], each once and in document order. *)
Theorem DOMContentLoaded_sets_up (lay : Layout) (doc : Document) :
  let w := DOMContentLoaded lay doc in
  document w = revealOnScroll lay doc
  /\ intervals w = ∅
  /\ nextTimer w = 1
  /\ statsObserved w = option_list (querySelector (Class "stats") doc)
  /\ imagesObserved w = querySelectorAll (TagAttr "img" "data-src") doc
  /\ NoDup (imagesObserved w).
Proof.
  intros w.
  destruct (DOMContentLoaded_state lay doc) as (Hdoc & Hint & Hstats & Himgs).
  fold w in Hdoc, Hint, Hstats, Himgs.
  split; [done|]. split; [done|]. split.
  { unfold w, DOMContentLoaded, initLazyLoading.
    apply (forEach_keeps (fun w' => nextTimer w' = 1)); [done|].
    unfold initStatsObserver.
    by destruct (querySelector (Class "stats") (document _)). }
  split; [done|]. split; [done|].
  rewrite Himgs. apply NoDup_querySelectorAll.
Qed.

Lemma revealOnScroll_kept `{Locale} (lay : Layout) (doc : Document) :
  Forall2 kept doc (revealOnScroll lay doc).
Proof.
  apply (handle_related kept (RevealRuns lay) (mkWorld doc ∅ 1 [] []));
    [apply kept_refl|apply kept_trans|].
  intros e. apply kept_classList_add. by left.
Qed.

(** X16: on a page whose watched statistics have no child elements, the
    script neither adds nor removes an element, whatever happens after the
    page is set up, and it leaves to every element its tag, its parent,
    its attributes other than [src] and [class] and its classes other than
    [active] and [loaded]. *)
Theorem run_keeps_structure `{Locale} (lay : Layout) (doc : Document)
  (evs : list Event) :
  childless doc (watched_stats doc) = true ->
  let w := run evs (DOMContentLoaded lay doc) in
  length (document w) = length doc
  /\ forall i e, doc !! i = Some e ->
       exists e', document w !! i = Some e' /\ kept e e'.
Proof.
  intros _ w.
  assert (Hk : Forall2 kept doc (document w)).
  { eapply Forall2_trans; [|apply (revealOnScroll_kept lay)|].
    - intros e1 e2 e3. apply kept_trans.
    - destruct (DOMContentLoaded_state lay doc) as (<- & _).
      apply run_kept. }
  split.
  - symmetry. by eapply Forall2_length.
  - intros i e He. by apply (Forall2_lookup_l _ _ _ i e Hk).
Qed.

Lemma run_keeps_structure_witness :
  let evs := [StatsUpdate (fun _ => true); ImagesUpdate (fun _ => true);
              IntervalFires 1; NavRuns (Sample.scrolled 1400); Loaded] in
  let w := @run Sample.en_US evs
             (DOMContentLoaded (Sample.scrolled 0) Sample.page) in
  length (document w) = length Sample.page
  /\ forall i e, Sample.page !! i = Some e ->
       exists e', document w !! i = Some e' /\ kept e e'.
Proof.
  apply (@run_keeps_structure Sample.en_US (Sample.scrolled 0) Sample.page).
  vm_compute. reflexivity.
Defined.

(** X18: the script never writes an attribute other than [class] of an
    element that has no [data-src] attribute: whatever happens after the
    page is set up, such an element has the other attributes it had in the
    page, with their values. *)
Theorem attributes_without_data_src `{Locale} (lay : Layout) (doc : Document)
  (evs : list Event) (i : nat) (e : Element) :
  doc !! i = Some e ->
  getAttribute "data-src" e = None ->
  exists e', document (run evs (DOMContentLoaded lay doc)) !! i = Some e'
    /\ forall a, a <> "class" -> getAttribute a e' = getAttribute a e.
Proof.
  intros He Hsrc.
  destruct (DOMContentLoaded_state lay doc) as (Hdoc & _ & _ & Hobs).
  destruct (revealOnScroll_attributes lay doc i e He) as (e0 & He0 & _ & Ha0).
  destruct (run_image_untouched evs (DOMContentLoaded lay doc) i e0)
    as (_ & _ & e' & He' & Ha').
  - rewrite Hobs. apply NoDup_querySelectorAll.
  - by rewrite Hdoc.
  - left. rewrite Hobs, elem_of_querySelectorAll. cbn [matches].
    unfold on_element. rewrite He. cbn [from_option].
    unfold hasAttribute. unfold getAttribute in Hsrc. rewrite Hsrc.
    rewrite andb_false_r. discriminate.
  - exists e'. split; [done|]. intros a _. unfold getAttribute. congruence.
Qed.

Lemma attributes_without_data_src_witness :
  exists e',
    document (@run Sample.en_US
                [ImagesUpdate (fun _ => true); StatsUpdate (fun _ => true); Loaded]
                (DOMContentLoaded (Sample.scrolled 0) Sample.page)) !! 2
    = Some e'
    /\ forall a, a <> "class" ->
         getAttribute a e'
         = getAttribute a
             (Sample.element "a" (Some 1) [("href", "#home")] [] "Home").
Proof.
  apply (@attributes_without_data_src Sample.en_US (Sample.scrolled 0)
           Sample.page
           [ImagesUpdate (fun _ => true); StatsUpdate (fun _ => true); Loaded] 2);
    reflexivity.
Defined.

(** ** Where text changes *)

Lemma forEach_keeps_in {A S : Type} (P : S -> Prop) (f : A -> S -> S)
  (l : list A) (s : S) :
  (forall a s, a ∈ l -> P s -> P (f a s)) -> P s -> P (forEach l f s).
Proof.
  revert s. induction l as [|a l IH]; intros s Hf Hs; [done|].
  rewrite forEach_cons. apply IH.
  - intros b s' Hb. apply Hf. by right.
  - apply Hf; [left|done].
Qed.

Lemma similar_stat_numbers (root : nat) (doc doc' : Document) :
  Forall2 similar doc doc' ->
  querySelectorAll_from root (Class "stat-number") doc'
  = querySelectorAll_from root (Class "stat-number") doc.
Proof.
  intros Hs. unfold querySelectorAll_from.
  rewrite (querySelectorAll_ext _ doc doc').
  - rewrite <- (Forall2_length _ _ _ Hs).
    apply list_filter_iff. intros i.
    by rewrite (similar_ancestors doc doc' _ i Hs).
  - symmetry. by eapply Forall2_length.
  - intros i. cbn [matches]. apply similar_on_element; [done|].
    intros e e' (_ & _ & Hc). unfold contains. apply bool_decide_ext.
    by apply Hc.
Qed.

Lemma handle_quiet_fields `{Locale} (ev : Event) (w : World) :
  (forall visible, ev <> StatsUpdate visible) ->
  (forall timer, ev <> IntervalFires timer) ->
  intervals (handle ev w) = intervals w
  /\ statsObserved (handle ev w) = statsObserved w
  /\ forall i, text_of i (document (handle ev w)) = text_of i (document w).
Proof.
  intros Hstats Hint. split; [|split].
  - destruct ev as [lay|lay|visible|visible|timer|anchor|]; simpl; try done.
    + by destruct (Hstats visible).
    + unfold images_update, imageObserver_callback.
      apply (forEach_keeps (fun w' => intervals w' = intervals w)); [|done].
      intros entry w1 H1. by destruct (isIntersecting entry).
    + by destruct (Hint timer).
    + by destruct (querySelector _ _).
  - destruct ev as [lay|lay|visible|visible|timer|anchor|]; simpl; try done.
    + by destruct (Hstats visible).
    + unfold images_update, imageObserver_callback.
      apply (forEach_keeps (fun w' => statsObserved w' = statsObserved w));
        [|done].
      intros entry w1 H1. by destruct (isIntersecting entry).
    + by destruct (Hint timer).
    + by destruct (querySelector _ _).
  - assert (Hrel : Forall2 same_text (document w) (document (handle ev w))).
    { apply handle_related; [done|unfold same_text; congruence|].
      destruct ev as [lay|lay|visible|visible|timer|anchor|]; simpl; try done.
      - by destruct (Hstats visible).
      - by destruct (Hint timer). }
    intros i. unfold text_of.
    apply Forall2_lookup with (i := i) in Hrel.
    by destruct Hrel as [e e' He|].
Qed.

Lemma start_counters_within (S stats : list nat) (w : World) :
  (forall stat, stat ∈ stats -> stat ∈ S) ->
  (forall timer c, intervals w !! timer = Some c -> cn_element c ∈ S) ->
  forall timer c,
    intervals (forEach stats start_counter w) !! timer = Some c ->
    cn_element c ∈ S.
Proof.
  intros Hstats. apply (forEach_keeps_in
    (fun w' => forall timer c, intervals w' !! timer = Some c -> cn_element c ∈ S)).
  intros stat w' Hin Hw' timer c. unfold start_counter.
  cbn [intervals animateCounter setInterval with_document nextTimer].
  destruct (decide (timer = nextTimer w')) as [->|Hne].
  - rewrite lookup_insert_eq. intros [= <-]. by apply Hstats.
  - rewrite lookup_insert_ne by done. apply Hw'.
Qed.

(** One event keeps the counters within [S] and the text outside [S]. *)
Lemma handle_counters_within `{Locale} (S : list nat) (ev : Event) (w : World) :
  counters_within S w ->
  counters_within S (handle ev w)
  /\ forall i, i ∉ S ->
       text_of i (document (handle ev w)) = text_of i (document w).
Proof.
  intros [Hint Hobs].
  assert (Hquery : forall section,
            querySelectorAll_from section (Class "stat-number")
                                  (document (handle ev w))
            = querySelectorAll_from section (Class "stat-number") (document w)).
  { intros section. apply similar_stat_numbers, handle_similar. }
  assert (Hcase : (exists visible, ev = StatsUpdate visible)
                  \/ (exists timer, ev = IntervalFires timer)
                  \/ ((forall visible, ev <> StatsUpdate visible)
                      /\ forall timer, ev <> IntervalFires timer)).
  { destruct ev; try (right; right; split; discriminate);
      [left|right; left]; by eexists. }
  destruct Hcase as [[visible ->]|[[timer ->]|[Hns Hni]]].
  - (* the stats observer is notified *)
    cbn [handle] in *.
    destruct Hobs as [Hnone|(section & Hsec & Hin)].
    { rewrite stats_update_idle by done. split; [split; auto|done]. }
    destruct (visible section) eqn:Hv.
    2:{ rewrite (stats_update_hidden visible w section) by done.
        split; [split; [done|right; by exists section]|done]. }
    rewrite (stats_update_visible_eq visible w section Hsec Hv).
    set (stats := querySelectorAll_from section (Class "stat-number") (document w))
      in *.
    split; [split|].
    + cbn [intervals with_statsObserved]. by apply start_counters_within.
    + left. cbn [statsObserved with_statsObserved].
      assert (Hkeep : statsObserved (forEach stats start_counter w) = [section]).
      { apply (forEach_keeps (fun w' => statsObserved w' = [section])); done. }
      rewrite Hkeep. unfold unobserve. by rewrite filter_cons_False by tauto.
    + intros i Hi. cbn [document with_statsObserved].
      destruct (start_counters_spec stats w) as (_ & Hd & _);
        [apply NoDup_querySelectorAll_from|].
      unfold text_of. rewrite Hd, bool_decide_eq_false_2; [done|].
      intros Hstat. by apply Hi, Hin.
  - (* an interval fires *)
    cbn [handle] in *. unfold interval_fires in *.
    destruct (intervals w !! timer) as [c|] eqn:Hc.
    2:{ split; [by split|done]. }
    pose proof (Hint timer c Hc) as Hel.
    destruct (counter_callback c) as [[c' shown] stop] eqn:Hcb.
    assert (Hc' : cn_element c' = cn_element c).
    { unfold counter_callback in Hcb.
      by destruct (Num.geb _ _); injection Hcb as <- _ _. }
    assert (Htext : forall i, i ∉ S ->
              text_of i (modify (cn_element c')
                           (set_textContent (toLocaleString shown)) (document w))
              = text_of i (document w)).
    { intros i Hi. unfold text_of, modify.
      rewrite list_lookup_alter_ne; [done|]. intros Heq. apply Hi.
      by rewrite <- Heq, Hc'. }
    destruct stop; unfold clearInterval, with_intervals, with_document;
      cbn [document intervals statsObserved nextTimer imagesObserved].
    + split; [split|done].
      * intros t d Hd. cbn in Hd. apply lookup_delete_Some in Hd as [_ Hd].
        by eapply Hint.
      * destruct Hobs as [Hnone|(section & Hsec & Hin)]; [by left|right].
        exists section. split; [done|]. intros stat Hstat. apply Hin.
        rewrite <- (similar_stat_numbers section (document w)
                      (modify (cn_element c')
                         (set_textContent (toLocaleString shown)) (document w)));
          [done|].
        apply Forall2_modify; [apply similar_trans| |apply Forall2_refl_doc, similar_refl].
        intros e. apply extends_similar, extends_set_textContent.
    + split; [split|done].
      * intros t d Hd. cbn in Hd. destruct (decide (t = timer)) as [->|Hne].
        -- rewrite lookup_insert_eq in Hd. injection Hd as <-. by rewrite Hc'.
        -- rewrite lookup_insert_ne in Hd by done. by eapply Hint.
      * destruct Hobs as [Hnone|(section & Hsec & Hin)]; [by left|right].
        exists section. split; [done|]. intros stat Hstat. apply Hin.
        rewrite <- (similar_stat_numbers section (document w)
                      (modify (cn_element c')
                         (set_textContent (toLocaleString shown)) (document w)));
          [done|].
        apply Forall2_modify; [apply similar_trans| |apply Forall2_refl_doc, similar_refl].
        intros e. apply extends_similar, extends_set_textContent.
  - (* the other events touch neither text nor counters *)
    destruct (handle_quiet_fields ev w Hns Hni) as (Hi & Hs & Ht).
    split; [split|by intros i _].
    + rewrite Hi. apply Hint.
    + rewrite Hs. destruct Hobs as [Hnone|(section & Hsec & Hin)]; [by left|right].
      exists section. split; [done|]. intros stat. rewrite Hquery. apply Hin.
Qed.

Lemma run_counters_within `{Locale} (S : list nat) (evs : list Event)
  (w : World) (i : nat) :
  counters_within S w -> i ∉ S ->
  text_of i (document (run evs w)) = text_of i (document w).
Proof.
  unfold run. revert w. induction evs as [|ev evs IH]; intros w Hw Hi; [done|].
  rewrite forEach_cons.
  destruct (handle_counters_within S ev w Hw) as [Hw' Ht].
  by rewrite IH, Ht.
Qed.

Lemma revealOnScroll_text (lay : Layout) (doc : Document) (i : nat) :
  text_of i (revealOnScroll lay doc) = text_of i doc.
Proof.
  unfold text_of. rewrite revealOnScroll_lookup.
  destruct (matches doc _ i), (doc !! i) as [e|]; try done. simpl.
  unfold reveal_one. by destruct (Qlt_bool _ _).
Qed.

(** X19: the only text the script ever rewrites is that of the
    [.stat-number] elements inside the first element with class [stats]:
    whatever happens after the page is set up, an element that is none of
    them and contains none of them reads as it did in the page. *)
Theorem text_changes_only_in_watched_stats `{Locale} (lay : Layout)
  (doc : Document) (evs : list Event) (i : nat) :
  apart_from doc (watched_stats doc) i ->
  text_of i (document (run evs (DOMContentLoaded lay doc))) = text_of i doc.
Proof.
  intros [Hi _].
  destruct (DOMContentLoaded_state lay doc) as (Hdoc & Hint & Hobs & _).
  rewrite (run_counters_within (watched_stats doc)); [|split|done].
  - rewrite Hdoc. apply revealOnScroll_text.
  - intros timer c. by rewrite Hint, lookup_empty.
  - rewrite Hobs. unfold watched_stats.
    destruct (querySelector (Class "stats") doc) as [section|]; [right|by left].
    exists section. split; [done|]. intros stat. rewrite Hdoc.
    assert (Hsim : Forall2 similar doc (revealOnScroll lay doc)).
    { eapply Forall2_impl; [apply (handle_related extends (RevealRuns lay)
                                     (mkWorld doc ∅ 1 [] []))|apply extends_similar].
      - apply extends_refl.
      - apply extends_trans.
      - intros e. apply extends_classList_add. by left. }
    by rewrite (similar_stat_numbers section _ _ Hsim).
Qed.

(** Link 2 of the sample page, while the counters of the statistics run. *)
Lemma text_changes_only_in_watched_stats_witness :
  text_of 2 (document (@run Sample.en_US
                         [StatsUpdate (fun _ => true); IntervalFires 1;
                          IntervalFires 3; NavRuns (Sample.scrolled 1400)]
                         (DOMContentLoaded (Sample.scrolled 0) Sample.page)))
  = text_of 2 Sample.page.
Proof.
  apply (@text_changes_only_in_watched_stats Sample.en_US).
  apply (bool_decide_unpack _). vm_compute. exact I.
Defined.

(** ** The window load listener *)

(** X20: the load listener adds the class [loaded] to the body and changes
    nothing else, and a second load event changes nothing at all. *)
Theorem window_load_marks_body `{Locale} (w : World) (body : nat) (e : Element) :
  querySelector (Tag "body") (document w) = Some body ->
  document w !! body = Some e ->
  let w' := handle Loaded w in
  document w' !! body = Some (classList_add "loaded" e)
  /\ (forall i, i <> body -> document w' !! i = document w !! i)
  /\ handle Loaded w' = w'.
Proof.
  intros Hbody He w'. unfold w'. cbn [handle]. rewrite Hbody.
  assert (Hbody' : querySelector (Tag "body")
                     (modify body (classList_add "loaded") (document w))
                   = Some body).
  { rewrite <- Hbody. unfold querySelector. f_equal.
    apply querySelectorAll_ext; [apply length_modify|].
    intros i. cbn [matches]. unfold on_element, modify.
    destruct (decide (body = i)) as [->|Hne].
    - rewrite list_lookup_alter_eq. by destruct (document w !! i).
    - by rewrite list_lookup_alter_ne. }
  cbn [document with_document]. split; [|split].
  - unfold modify. by rewrite list_lookup_alter_eq, He.
  - intros i Hi. unfold modify. by rewrite list_lookup_alter_ne.
  - rewrite Hbody'. unfold with_document. cbn [document intervals nextTimer
      statsObserved imagesObserved]. f_equal.
    unfold modify. rewrite list_alter_alter_eq.
    apply list_alter_ext; [|done]. intros x _. apply classList_add_twice.
Qed.

Lemma window_load_marks_body_witness :
  let w := DOMContentLoaded (Sample.scrolled 0) Sample.page in
  let w' := @handle Sample.en_US Loaded w in
  document w' !! 0
  = Some (classList_add "loaded" (Sample.element "body" None [] [] ""))
  /\ (forall i, i <> 0 -> document w' !! i = document w !! i)
  /\ @handle Sample.en_US Loaded w' = w'.
Proof.
  apply (@window_load_marks_body Sample.en_US
           (DOMContentLoaded (Sample.scrolled 0) Sample.page) 0
           (Sample.element "body" None [] [] "")); reflexivity.
Defined.

(** ** Lazy loading, image by image *)

Lemma filter_ext_in {A : Type} (P Q : A -> Prop) `{forall x, Decision (P x)}
  `{forall x, Decision (Q x)} (l : list A) :
  (forall x, x ∈ l -> (P x <-> Q x)) -> filter P l = filter Q l.
Proof.
  induction l as [|x l IH]; intros Hext; [done|].
  rewrite !filter_cons.
  rewrite IH by (intros y Hy; apply Hext; by right).
  destruct (decide (P x)) as [HP|HP], (decide (Q x)) as [HQ|HQ]; try done.
  - destruct HQ. apply Hext; [left|done].
  - destruct HP. apply Hext; [left|done].
Qed.

(** X21: one notification of the image observer loads exactly the watched
    images it reports as intersecting, whatever their number, and leaves
    every other element as it is; afterwards the observer watches the
    images that did not intersect, and only those. *)
Theorem images_update_loads_intersecting (visible : nat -> bool) (w : World) :
  NoDup (imagesObserved w) ->
  (forall i, document (images_update visible w) !! i = image_after visible w i)
  /\ imagesObserved (images_update visible w)
     = filter (fun img => visible img = false) (imagesObserved w).
Proof.
  intros Hnd.
  destruct (imageObserver_callback_spec visible (imagesObserved w) w Hnd)
    as [Hdoc Hobs].
  split; [exact Hdoc|].
  unfold images_update. rewrite Hobs. apply filter_ext_in.
  intros img Himg. split.
  - intros Hn. destruct (visible img); [|done]. destruct Hn. by split.
  - intros Hv [_ Hv']. congruence.
Qed.

Lemma images_update_loads_intersecting_witness :
  let w := DOMContentLoaded (Sample.scrolled 0) Sample.page in
  (forall i, document (images_update (fun _ => true) w) !! i
             = image_after (fun _ => true) w i)
  /\ imagesObserved (images_update (fun _ => true) w)
     = filter (fun img => (fun _ : nat => true) img = false) (imagesObserved w).
Proof.
  apply (images_update_loads_intersecting (fun _ => true)
           (DOMContentLoaded (Sample.scrolled 0) Sample.page)).
  apply (bool_decide_unpack _). vm_compute. exact I.
Defined.

(** ** Mobile navigation *)
Import MobileNavigation.

Lemma scrolls_snoc (positions : list (Q * Q)) (position : Q * Q) (st : State) :
  scrolls (positions ++ [position]) st
  = default (scrolls positions st) (on_scroll position (scrolls positions st)).
Proof. unfold scrolls. by rewrite forEach_app. Qed.

Lemma scrolls_nav (positions : list (Q * Q)) (st : State) :
  nav (scrolls positions st) = nav st.
Proof.
  unfold scrolls. apply (forEach_keeps (fun st' => nav st' = nav st)); [|done].
  intros position st' Hst'. unfold on_scroll.
  destruct (nav st') eqn:Hnav; simpl; congruence.
Qed.

(** X22: with a [nav] element in the page, what the scroll listener of
    [initMobileNavigation] leaves after a sequence of scroll events depends
    on its last two positions only: the navigation bar is moved out of
    view exactly when the last position is greater than the one before and
    greater than 100, and it is put back otherwise; the position read is
    [window.pageYOffset], or the scroll top of the document where that is
    zero. *)
Theorem mobile_nav_hidden_when_scrolling_down (history : list (Q * Q))
  (before last : Q * Q) (st : State) (element : nat) :
  nav st = Some element ->
  let st' := scrolls (history ++ [before; last]) st in
  let y1 := or_else (fst before) (snd before) in
  let y2 := or_else (fst last) (snd last) in
  lastScrollTop st' = y2
  /\ transform st'
     = Some (if Qlt_bool y1 y2 && Qlt_bool 100 y2
             then "translateY(-100%)" else "translateY(0)").
Proof.
  intros Hnav st' y1 y2. unfold st'.
  change [before; last] with ([before] ++ [last])%list.
  rewrite app_assoc, scrolls_snoc, scrolls_snoc.
  set (st0 := scrolls history st).
  assert (Hnav0 : nav st0 = Some element) by (unfold st0; by rewrite scrolls_nav).
  assert (H1 : exists style,
            on_scroll before st0 = Some (mkState (Some element) y1 style)).
  { unfold on_scroll. rewrite Hnav0. by eexists. }
  destruct H1 as [style ->]. simpl default.
  unfold on_scroll. by cbn [nav lastScrollTop default transform].
Qed.

Lemma mobile_nav_hidden_when_scrolling_down_witness :
  let st := mkState (Some 1) 0%Q None in
  let st' := scrolls ([(50%Q, 0%Q); (300%Q, 0%Q)] ++ [(400%Q, 400%Q); (0%Q, 120%Q)]) st in
  lastScrollTop st' = or_else 0%Q 120%Q
  /\ transform st'
     = Some (if Qlt_bool (or_else 400%Q 400%Q) (or_else 0%Q 120%Q)
                && Qlt_bool 100 (or_else 0%Q 120%Q)
             then "translateY(-100%)" else "translateY(0)").
Proof.
  apply (mobile_nav_hidden_when_scrolling_down [(50%Q, 0%Q); (300%Q, 0%Q)]
           (400%Q, 400%Q) (0%Q, 120%Q) (mkState (Some 1) 0%Q None) 1).
  reflexivity.
Defined.

(** X23: without a [nav] element in the page every scroll event ends in the
    [TypeError] of the assignment to [nav.style], and the listener never
    records a position. *)
Theorem mobile_nav_missing (doc : Document) (positions : list (Q * Q))
  (position : Q * Q) :
  querySelector (Tag "nav") doc = None ->
  let st := scrolls positions (initMobileNavigation doc) in
  on_scroll position st = None /\ st = initMobileNavigation doc.
Proof.
  intros Hnone st.
  assert (Hst : st = initMobileNavigation doc).
  { unfold st, scrolls.
    apply (forEach_keeps (fun st' => st' = initMobileNavigation doc)); [|done].
    intros p st' ->. unfold on_scroll, initMobileNavigation. cbn [nav].
    by rewrite Hnone. }
  split; [|done]. rewrite Hst.
  unfold on_scroll, initMobileNavigation. cbn [nav]. by rewrite Hnone.
Qed.

Lemma mobile_nav_missing_witness :
  let st := scrolls [(150%Q, 0%Q); (90%Q, 0%Q)] (initMobileNavigation Sample.page) in
  on_scroll (200%Q, 0%Q) st = None /\ st = initMobileNavigation Sample.page.
Proof.
  apply (mobile_nav_missing Sample.page [(150%Q, 0%Q); (90%Q, 0%Q)] (200%Q, 0%Q)).
  reflexivity.
Defined.

(** ** Running the scroll handlers again *)

Lemma mark_link_href (current : option string) (e : Element) :
  getAttribute "href" (mark_link current e) = getAttribute "href" e.
Proof. unfold mark_link. by case_bool_decide. Qed.

Lemma mark_link_twice (current : option string) (e : Element) :
  mark_link current (mark_link current e) = mark_link current e.
Proof.
  unfold mark_link, getAttribute, classList_add, classList_remove.
  cbn [tagName parentNode attributes classList textContent].
  destruct (bool_decide (attributes e !! "href" = Some (hash_of current)))
    eqn:Hb;
    cbn [tagName parentNode attributes classList textContent]; rewrite Hb;
    f_equal; apply set_eq; intros x;
    rewrite ?elem_of_union, ?elem_of_difference, ?elem_of_union,
      ?elem_of_difference, ?elem_of_singleton; tauto.
Qed.

Lemma updateActiveNavLink_on_element (lay : Layout) (doc : Document) (j : nat)
  (p : Element -> bool) :
  (forall current e, p (mark_link current e) = p e) ->
  on_element (updateActiveNavLink lay doc) j p = on_element doc j p.
Proof.
  intros Hp. unfold on_element. rewrite updateActiveNavLink_lookup.
  destruct (doc !! j) as [e|]; [|by destruct (matches doc _ j)].
  destruct (matches doc _ j); [|done]. simpl. apply Hp.
Qed.

Lemma updateActiveNavLink_length (lay : Layout) (doc : Document) :
  length (updateActiveNavLink lay doc) = length doc.
Proof.
  unfold updateActiveNavLink.
  apply (forEach_keeps (fun d => length d = length doc)); [|done].
  intros i d Hd. case_bool_decide; by rewrite !length_modify.
Qed.

Lemma updateActiveNavLink_id (lay : Layout) (doc : Document) (s : nat) :
  updateActiveNavLink lay doc !! s ≫= getAttribute "id"
  = doc !! s ≫= getAttribute "id".
Proof.
  rewrite updateActiveNavLink_lookup.
  destruct (matches doc _ s), (doc !! s) as [e|]; try done. simpl.
  unfold mark_link. by case_bool_decide.
Qed.

Lemma updateActiveNavLink_current (lay lay' : Layout) (doc : Document) :
  current_section lay' (updateActiveNavLink lay doc) = current_section lay' doc.
Proof.
  unfold current_section.
  rewrite (querySelectorAll_ext _ doc (updateActiveNavLink lay doc)).
  - apply forEach_ext_in. intros s cur _.
    by rewrite updateActiveNavLink_id.
  - apply updateActiveNavLink_length.
  - intros i. cbn [matches]. apply updateActiveNavLink_on_element.
    intros current e. unfold mark_link. by case_bool_decide.
Qed.

Lemma updateActiveNavLink_keeps_links (lay : Layout) (doc : Document) (j : nat) :
  matches (updateActiveNavLink lay doc) (Descendant (Class "nav-links") (Tag "a")) j
  = matches doc (Descendant (Class "nav-links") (Tag "a")) j.
Proof.
  apply similar_navLink, Forall2_lookup. intros i.
  rewrite updateActiveNavLink_lookup.
  destruct (matches doc _ i), (doc !! i) as [e|]; simpl; constructor;
    auto using similar_refl, similar_mark_link.
Qed.

(** X24: [updateActiveNavLink] is idempotent: a second call with the same
    layout changes nothing, so that it does not matter how often the
    debounced handler runs at one scroll position. *)
Theorem updateActiveNavLink_idempotent (lay : Layout) (doc : Document) :
  updateActiveNavLink lay (updateActiveNavLink lay doc)
  = updateActiveNavLink lay doc.
Proof.
  apply list_eq. intros j.
  rewrite (updateActiveNavLink_lookup lay (updateActiveNavLink lay doc)).
  rewrite updateActiveNavLink_keeps_links, updateActiveNavLink_current.
  rewrite updateActiveNavLink_lookup.
  destruct (matches doc _ j); [|done].
  destruct (doc !! j) as [e|]; [|done]. simpl. by rewrite mark_link_twice.
Qed.
